(** * Vinted AutoLister: the front-end helpers and the pricing core

    The development has three parts.

    - [Js]: the fragment of JavaScript the front-end modules rely on:
      values, property reads, binary64 rounding, [Math.round],
      [Math.random] as an oracle, strings as UTF-16 code units, [trim]
      and [parseFloat].
    - [AiGenerator] and [FormValidator]: the functions of aiGenerator.js
      and formValidator.js, translated line by line.
    - [PricingCore]: the normalizer and the estimator of the pricing
      core.  The repository announces them (core/price_analyzer.py in its
      layout) but ships no code for them, so they are modelled from the
      specification. *)

From Stdlib Require Import ZArith QArith Qround Qabs Qpower Lia Lqa.
From Stdlib Require Import List String Ascii Bool DecimalString.
From Stdlib Require Import Reals Qreals.
From Stdlib Require Lra.
Import ListNotations.

Local Open Scope Q_scope.

(* ================================================================== *)
(** * The JavaScript fragment *)
(* ================================================================== *)

Module Js.

(** ** Values and property reads *)

(** A Number: a finite binary64 value (as the rational it denotes), an
    infinity or NaN.  The two zeros are not told apart. *)
Inductive js_number : Type :=
| NaN
| Finite (x : Q)
| PosInfinity
| NegInfinity.

#[warnings="-register-all"]
Inductive js_value : Type :=
| JUndefined
| JNull
| JBool (b : bool)
| JNum (x : js_number)
| JStr (s : string)
| JObj (props : list (string * js_value)).

(** An object literal, as the list of its own properties. *)
Definition js_object := list (string * js_value).

Fixpoint lookup_prop (k : string) (o : js_object) : js_value :=
  match o with
  | [] => JUndefined
  | (k', v) :: o' => if String.eqb k k' then v else lookup_prop k o'
  end.

(** [v.k] for the property names this program uses: none of them lives on
    a built-in prototype, so a read on a primitive gives [undefined]. *)
Definition js_get (v : js_value) (k : string) : js_value :=
  match v with
  | JObj o => lookup_prop k o
  | _ => JUndefined
  end.

(** [{ ...o, k: v }] *)
Definition js_set (k : string) (v : js_value) (o : js_object) : js_object :=
  (k, v) :: o.

(** ** Binary64 arithmetic

    A JavaScript number is an IEEE 754 binary64 value.  Finite values are
    rationals; an arithmetic operation is the exact operation followed by
    rounding to the nearest representable value, ties to even. *)

(** [ilog2 x] is the integer [l] with [2^l <= x < 2^(l+1)], for [0 < x]. *)
Definition ilog2 (x : Q) : Z :=
  let k := (Z.log2 (Qnum x) - Z.log2 (Zpos (Qden x)))%Z in
  if Qle_bool (2 ^ k) x then k else (k - 1)%Z.

(** Exponent of the unit in the last place of [x]: 53 significant bits,
    gradual underflow below [2^-1022]. *)
Definition ulp_exp (x : Q) : Z := (Z.max (ilog2 x) (-1022) - 52)%Z.

(** Nearest integer, ties to even. *)
Definition round_half_even (x : Q) : Z :=
  let f := Qfloor x in
  match Qcompare (x - inject_Z f) (1 # 2) with
  | Lt => f
  | Gt => (f + 1)%Z
  | Eq => if Z.even f then f else (f + 1)%Z
  end.

Definition b64_pos (x : Q) : Q :=
  let e := ulp_exp x in
  inject_Z (round_half_even (x / 2 ^ e)) * 2 ^ e.

(** Rounding of a real to binary64 (below the overflow threshold). *)
Definition b64 (x : Q) : Q :=
  match Qnum x with
  | Z0 => 0
  | Zpos _ => b64_pos x
  | Zneg _ => - b64_pos (- x)
  end.

Definition fadd (x y : Q) : Q := b64 (x + y).
Definition fmul (x y : Q) : Q := b64 (x * y).

(** [Math.round]: the nearest integer, ties towards +infinity. *)
Definition Math_round (x : Q) : Z := Qfloor (x + (1 # 2)).

(** ** [Math.random]

    The runtime's generator is an oracle: a world carries the sequence of
    values the generator will return and a cursor into it. *)

Record World : Type := mkWorld { draws : nat -> Q; cursor : nat }.

Definition Rand (A : Type) : Type := World -> A * World.

Definition ret {A} (a : A) : Rand A := fun w => (a, w).

Definition bind {A B} (m : Rand A) (k : A -> Rand B) : Rand B :=
  fun w => let (a, w') := m w in k a w'.

Notation "x <- m ;; k" := (bind m (fun x => k))
  (at level 61, m at next level, right associativity).

Definition next_draw (w : World) : Q := draws w (cursor w).

Definition Math_random : Rand Q :=
  fun w => (next_draw w, mkWorld (draws w) (S (cursor w))).

(** [Math.random] returns values in [0, 1). *)
Definition unit_interval (u : Q) : Prop := 0 <= u /\ u < 1.

Definition fair (w : World) : Prop := forall n, unit_interval (draws w n).

(** ** Comparison of Numbers: [a <= b] *)

Definition js_le (a b : js_number) : bool :=
  match a, b with
  | NaN, _ | _, NaN => false
  | NegInfinity, _ => true
  | _, PosInfinity => true
  | PosInfinity, _ => false
  | _, NegInfinity => false
  | Finite x, Finite y => Qle_bool x y
  end.

(** The Number value for a real: the nearest binary64 value, an infinity
    when the rounded magnitude reaches [2^1024]. *)
Definition to_number (x : Q) : js_number :=
  let r := b64 x in
  if Qle_bool (2 ^ 1024) r then PosInfinity
  else if Qle_bool r (- 2 ^ 1024) then NegInfinity
  else Finite r.

(** ** Strings: sequences of UTF-16 code units *)

Definition code_unit := N.
Definition js_string := list code_unit.

(** A source literal (ASCII only). *)
Definition lit (s : string) : js_string :=
  map N_of_ascii (list_ascii_of_string s).

Definition js_string_eqb (a b : js_string) : bool :=
  if list_eq_dec N.eq_dec a b then true else false.

(** WhiteSpace and LineTerminator code points, all in the basic plane. *)
Definition is_white_space (c : code_unit) : bool :=
  existsb (N.eqb c)
    [9; 10; 11; 12; 13; 32; 160; 5760; 8232; 8233; 8239; 8287; 12288; 65279]%N
  || ((8192 <=? c) && (c <=? 8202))%N.

Fixpoint trimStart (s : js_string) : js_string :=
  match s with
  | c :: s' => if is_white_space c then trimStart s' else s
  | [] => []
  end.

Definition trimEnd (s : js_string) : js_string := rev (trimStart (rev s)).

(** [String.prototype.trim] *)
Definition trim (s : js_string) : js_string := trimEnd (trimStart s).

(** ** [parseFloat]

    The longest prefix of the input (leading white space skipped) that is
    a StrDecimalLiteral: an optional sign, then [Infinity] or decimal
    digits with an optional fraction and an optional exponent. *)

Definition digit_of (c : code_unit) : option Z :=
  if ((48 <=? c) && (c <=? 57))%N then Some (Z.of_N c - 48)%Z else None.

(** Leading decimal digits: their value, their number, and the rest. *)
Fixpoint span_digits (s : js_string) (acc : Z) (n : Z) : Z * Z * js_string :=
  match s with
  | c :: s' =>
      match digit_of c with
      | Some d => span_digits s' (10 * acc + d)%Z (n + 1)%Z
      | None => (acc, n, s)
      end
  | [] => (acc, n, [])
  end.

Fixpoint starts_with (p s : js_string) : bool :=
  match p, s with
  | [], _ => true
  | a :: p', b :: s' => N.eqb a b && starts_with p' s'
  | _ :: _, [] => false
  end.

(** ExponentPart, when a complete one follows; exponent 0 otherwise. *)
Definition exponent_part (s : js_string) : Z :=
  match s with
  | c :: s' =>
      if ((c =? 101) || (c =? 69))%N then
        let '(neg, s'') :=
          match s' with
          | 43%N :: t => (false, t)
          | 45%N :: t => (true, t)
          | _ => (false, s')
          end in
        let '(e, n, _) := span_digits s'' 0 0 in
        if (n =? 0)%Z then 0%Z else if neg then (- e)%Z else e
      else 0%Z
  | [] => 0%Z
  end.

(** The mathematical value of an unsigned literal, if there is one:
    digits with an optional fraction, or a fraction alone, then the
    exponent. *)
Definition unsigned_literal (s : js_string) : option Q :=
  let '(int, ni, rest) := span_digits s 0 0 in
  match rest with
  | 46%N :: rest' =>
      let '(frac, nf, rest'') := span_digits rest' 0 0 in
      if ((ni =? 0) && (nf =? 0))%Z then None
      else Some (inject_Z (int * 10 ^ nf + frac)
                 * 10 ^ (exponent_part rest'' - nf))
  | _ =>
      if (ni =? 0)%Z then None
      else Some (inject_Z int * 10 ^ exponent_part rest)
  end.

Definition parseFloat (input : js_string) : js_number :=
  let s := trimStart input in
  let '(neg, body) :=
    match s with
    | 43%N :: t => (false, t)
    | 45%N :: t => (true, t)
    | _ => (false, s)
    end in
  if starts_with (lit "Infinity") body then
    if neg then NegInfinity else PosInfinity
  else
    match unsigned_literal body with
    | Some mv => to_number (if neg then - mv else mv)
    | None => NaN
    end.

End Js.

Import Js.

(* ================================================================== *)
(** * aiGenerator.js *)
(* ================================================================== *)

Module AiGenerator.

(** [const base = 20 + Math.random() * 30; return Math.round(base);]
    as a function of the value [Math.random] returned. *)
Definition price_of_draw (u : Q) : Z :=
  let base := fadd 20 (fmul u 30) in
  Math_round base.

(** [generateAIPrice({ category, condition })]: both fields are read from
    the argument and neither is used. *)
Definition generateAIPrice (input : js_object) : Rand Z :=
  let category := lookup_prop "category" input in
  let condition := lookup_prop "condition" input in
  u <- Math_random ;;
  ret (price_of_draw u).

(** The returned Number, as the value a caller holds. *)
Definition as_value (p : Z) : js_value := JNum (Finite (inject_Z p)).

(** The bounds of a range value [{ low, high }]. *)
Definition range_bounds (r : js_value) : option (Q * Q) :=
  match js_get r "low", js_get r "high" with
  | JNum (Finite lo), JNum (Finite hi) => Some (lo, hi)
  | _, _ => None
  end.

(** The argument with its [condition] field set. *)
Definition with_condition (c : js_value) (input : js_object) : js_object :=
  js_set "condition" c input.

(** Two calls in a row on the same argument. *)
Definition twice (input : js_object) : Rand (Z * Z) :=
  a <- generateAIPrice input ;;
  b <- generateAIPrice input ;;
  ret (a, b).

(** Sample worlds: a generator that alternates between 0 and 1/2, and one
    that always returns 0. *)
Definition alternating : World :=
  mkWorld (fun n => if Nat.even n then 0 else 1 # 2) 0.

Definition stuck_at_zero : World := mkWorld (fun _ => 0) 7.

Definition hoodie : js_object :=
  [("category"%string, JStr "Felpa"); ("condition"%string, JStr "good")].

(** Determinism, as the specification states it: two runs of the pricing code on
    the same input give the same output. *)
Definition pricing_deterministic : Prop :=
  forall (input : js_object) (w : World),
    fair w -> fst (fst (twice input w)) = snd (fst (twice input w)).

(** Positivity, as the specification states it: the recommended price is positive
    and the estimate carries a price range around it. *)
Definition positive_with_range : Prop :=
  forall (input : js_object) (w : World),
    fair w ->
    let p := fst (generateAIPrice input w) in
    (0 < p)%Z
    /\ exists lo hi : Q,
         range_bounds (js_get (as_value p) "price_range") = Some (lo, hi)
         /\ lo <= inject_Z p <= hi.

(** Monotonic condition adjustment, as the specification states it: on
    the same sample the price for
    condition "new" is strictly greater than the price for "poor". *)
Definition strictly_monotone_in_condition : Prop :=
  forall (input : js_object) (w_new w_poor : World),
    fair w_new -> fair w_poor ->
    (fst (generateAIPrice (with_condition (JStr "poor") input) w_poor)
     < fst (generateAIPrice (with_condition (JStr "new") input) w_new))%Z.

End AiGenerator.

Import AiGenerator.

(* ================================================================== *)
(** * formValidator.js *)
(* ================================================================== *)

Module FormValidator.

(** A form control: the three properties the validator reads, each a
    string. *)
Record Element : Type := mkElement {
  id : js_string;
  type : js_string;
  value : js_string
}.

(** The document, as its elements in tree order. *)
Definition Document := list Element.

Definition getElementById (document : Document) (i : js_string)
  : option Element :=
  find (fun el => js_string_eqb (id el) i) document.

Section WithHandler.

(** The caller's state, and its [onError] callback acting on it; the
    first argument is the field, [None] for [null].  The callback
    returns normally and the validator discards its result. *)
Context {S : Type}.
Definition ErrorHandler : Type := option Element -> string -> S -> S.

Definition validateField (field : Element) (onError : ErrorHandler)
  : S -> bool * S :=
  fun s =>
    let value := trim (value field) in
    let error :=
      if js_string_eqb value [] then
        "This field is required"%string
      else if js_string_eqb (type field) (lit "number")
              && js_le (parseFloat value) (Finite 0) then
        "Please enter a valid number"%string
      else if js_string_eqb (id field) (lit "title-input")
              && (List.length value <? 10)%nat then
        "Title must be at least 10 characters"%string
      else if js_string_eqb (id field) (lit "description-input")
              && (List.length value <? 20)%nat then
        "Description must be at least 20 characters"%string
      else
        EmptyString
    in
    if negb (String.eqb error EmptyString) then (false, onError (Some field) error s)
    else (true, s).

(** One turn of [requiredFieldIds.forEach]. *)
Definition check_required (document : Document) (onError : ErrorHandler)
  (st : bool * S) (i : js_string) : bool * S :=
  let '(isValid, s) := st in
  match getElementById document i with
  | Some field =>
      let '(ok, s') := validateField field onError s in
      if negb ok then (false, s') else (isValid, s')
  | None => (isValid, s)
  end.

Definition validateForm (document : Document)
  (requiredFieldIds : list js_string) (uploadedImages : list js_value)
  (onError : ErrorHandler) : S -> bool * S :=
  fun s =>
    let isValid := true in
    let '(isValid, s) :=
      if (List.length uploadedImages =? 0)%nat then
        (false, onError None "Please upload at least one image"%string s)
      else (isValid, s) in
    fold_left (check_required document onError) requiredFieldIds
      (isValid, s).

End WithHandler.

(** The callback that records its calls, oldest first. *)
Definition ErrorCall : Type := option Element * string.

Definition record : @ErrorHandler (list ErrorCall) :=
  fun field message log => log ++ [(field, message)].

(** The four grounds for rejecting a field, on its trimmed value. *)
Definition field_invalid (field : Element) : Prop :=
  let v := trim (value field) in
  v = []
  \/ (type field = lit "number" /\ js_le (parseFloat v) (Finite 0) = true)
  \/ (id field = lit "title-input" /\ (List.length v < 10)%nat)
  \/ (id field = lit "description-input" /\ (List.length v < 20)%nat).

(** Replaying a log of calls on a caller's state. *)
Definition replay {S : Type} (onError : @ErrorHandler S)
  (calls : list ErrorCall) (s : S) : S :=
  fold_left (fun s c => onError (fst c) (snd c) s) calls s.

(** A sample form. *)
Definition title_field : Element :=
  mkElement (lit "title-input") (lit "text") (lit "  Felpa Nike nera  ").
Definition price_field : Element :=
  mkElement (lit "price-input") (lit "number") (lit "13").
Definition sample_document : Document := [title_field; price_field].

End FormValidator.

Import FormValidator.

(* ================================================================== *)
(** * The pricing core: Comparable Normalizer and Price Estimator *)
(* ================================================================== *)

Module PricingCore.

(** ** Data model *)

(** Modelled from the spec: the ordered condition enumeration
    {new > like-new > good > fair > poor} of the data model; the
    repository has no declaration of it. *)
Inductive Condition : Type := New | LikeNew | Good | Fair | Poor.

(** Modelled from the spec: the tagged variant {Known(rank), Unknown} a
    free-text condition label is mapped to. *)
Inductive ConditionTag : Type :=
| Known (c : Condition)
| Unknown.

(** Modelled from the spec: the ScrapedListing record, raw and untrusted;
    the price may be missing. *)
Record ScrapedListing : Type := mkListing {
  price : option string;
  title : string;
  condition : string;
  size : string
}.

(** Modelled from the spec: the query attributes the comparable search
    was built from; every attribute may be absent. *)
Record QueryAttributes : Type := mkQuery {
  brand : option string;
  type : option string;
  color : option string;
  material : option string;
  query_size : option string;
  query_condition : option string
}.

(** Modelled from the spec: an element of a ComparableSample. *)
Record Comparable : Type := mkComparable {
  comparable_price : Q;
  condition_rank : ConditionTag;
  size_match : bool
}.

Definition ComparableSample := list Comparable.

(** Modelled from the spec: the confidence enumeration. *)
Inductive Confidence : Type := High | Medium | Low.

(** Modelled from the spec: the PriceEstimate record. *)
Record PriceEstimate : Type := mkEstimate {
  recommended_price : Q;
  price_range : Q * Q;
  confidence : Confidence;
  sample_size : nat
}.

(** Modelled from the spec: the one hard error of the core. *)
Inductive CoreError : Type := InvalidQuery.

(** Modelled from the spec: the explicit configuration structure of the
    design notes.  It holds what the specification leaves to the
    implementer: the price syntax accepted, the condition and size lookup
    tables, the percentile method, the condition factor, the rounding
    granularity and the caller-supplied default price. *)
Record Policy : Type := mkPolicy {
  parse_number : string -> option Q;
  condition_table : string -> ConditionTag;
  size_token : string -> option string;
  percentile : Q -> list Q -> Q;
  condition_factor : Condition -> ComparableSample -> Q;
  round_price : list Q -> Q -> Q;
  default_price : Q
}.

(** ** Helpers: text *)

(** Modelled from the spec: case folding for the case-insensitive match
    of the relevance filter (ASCII letters). *)
Definition lower (c : ascii) : ascii :=
  let n := nat_of_ascii c in
  if ((65 <=? n) && (n <=? 90))%nat then ascii_of_nat (n + 32) else c.

Fixpoint lowercase (s : string) : string :=
  match s with
  | EmptyString => EmptyString
  | String c s' => String (lower c) (lowercase s')
  end.

(** Modelled from the spec: the substring match of the relevance
    filter. *)
Fixpoint contains (needle hay : string) : bool :=
  String.prefix needle hay
  || match hay with
     | EmptyString => false
     | String _ hay' => contains needle hay'
     end.

(** Modelled from the spec: the tokens of a query attribute, its words
    split at spaces; [cur] is the word being read, reversed. *)
Fixpoint words_from (cur : list ascii) (s : string) : list string :=
  let flush := match cur with
               | [] => []
               | _ :: _ => [string_of_list_ascii (rev cur)]
               end in
  match s with
  | EmptyString => flush
  | String c s' =>
      if Ascii.eqb c " "%char then (flush ++ words_from [] s')%list
      else words_from (c :: cur) s'
  end.

Definition words (s : string) : list string := words_from [] s.

(** ** Helpers: statistics over rationals

    Modelled from the spec: the sort-based statistics the estimator and
    the outlier rule are described with (sum, mean, variance, median);
    prices are exact rationals. *)

Definition Qlt_bool (x y : Q) : bool := negb (Qle_bool y x).

Fixpoint insert_sorted (x : Q) (l : list Q) : list Q :=
  match l with
  | [] => [x]
  | y :: l' => if Qle_bool x y then x :: l else y :: insert_sorted x l'
  end.

Definition sort (l : list Q) : list Q := fold_right insert_sorted [] l.

Definition sum (l : list Q) : Q := fold_right Qplus 0 l.

Definition count (l : list Q) : Q := inject_Z (Z.of_nat (List.length l)).

Definition mean (l : list Q) : Q := sum l / count l.

(** Modelled from the spec: the variance behind "stdev", taken over the
    whole sample (population variance). *)
Definition variance (l : list Q) : Q :=
  let m := mean l in
  sum (map (fun x => (x - m) * (x - m)) l) / count l.

(** Modelled from the spec: the median of step 2, the middle of the
    sorted prices, or the mean of the two middle ones. *)
Definition median (l : list Q) : Q :=
  let s := sort l in
  let n := List.length s in
  if Nat.even n then (nth (n / 2 - 1) s 0 + nth (n / 2) s 0) / 2
  else nth (n / 2) s 0.

(** Modelled from the spec: the standard deviation and the coefficient
    of variation stdev / mean of the sample prices, as real numbers. *)
Definition stdev (l : list Q) : R := sqrt (Q2R (variance l)).

Definition coefficient_of_variation (l : list Q) : R :=
  (stdev l / Q2R (mean l))%R.

(** Modelled from the spec: the test [stdev / mean < t] as an estimator
    over rationals computes it, both sides squared. *)
Definition cv_belowb (t : Q) (l : list Q) : bool :=
  Qlt_bool (variance l) ((t * mean l) * (t * mean l)).

(** Modelled from the spec: the invariant of a ComparableSample, every
    price is strictly positive. *)
Definition valid_sample (s : list Comparable) : Prop :=
  Forall (fun c => 0 < comparable_price c) s.

Section WithPolicy.

Variable cfg : Policy.

(** ** Comparable Normalizer *)

(** Modelled from the spec: step 1, price parsing.  A missing price, a
    text that is no number and a number that is not positive all give
    no price. *)
Definition parse_price (l : ScrapedListing) : option Q :=
  match price l with
  | None => None
  | Some raw =>
      match parse_number cfg raw with
      | Some p => if Qlt_bool 0 p then Some p else None
      | None => None
      end
  end.

(** Modelled from the spec: the brand and type tokens of the query. *)
Definition query_tokens (q : QueryAttributes) : list string :=
  (match brand q with Some b => words (lowercase b) | None => [] end
   ++ match type q with Some t => words (lowercase t) | None => [] end)%list.

(** Modelled from the spec: step 2, the relevance filter; a title is
    relevant when some query token occurs in it, case-insensitively. *)
Definition relevant (q : QueryAttributes) (l : ScrapedListing) : bool :=
  existsb (fun t => contains t (lowercase (title l))) (query_tokens q).

(** Modelled from the spec: step 4, the size match flag. *)
Definition sizes_match (q : QueryAttributes) (l : ScrapedListing) : bool :=
  match size_token cfg (size l), query_size q with
  | Some a, Some qs =>
      match size_token cfg qs with
      | Some b => String.eqb a b
      | None => false
      end
  | _, _ => false
  end.

(** Modelled from the spec: steps 1 to 4 on one listing. *)
Definition to_comparable (q : QueryAttributes) (l : ScrapedListing)
  : option Comparable :=
  match parse_price l with
  | None => None
  | Some p =>
      if relevant q l then
        Some (mkComparable p (condition_table cfg (condition l))
                (sizes_match q l))
      else None
  end.

(** Modelled from the spec: the listings left after steps 1 to 4, in
    the order of the input. *)
Fixpoint candidates (q : QueryAttributes) (raw : list ScrapedListing)
  : ComparableSample :=
  match raw with
  | [] => []
  | l :: raw' =>
      match to_comparable q l with
      | Some c => c :: candidates q raw'
      | None => candidates q raw'
      end
  end.

(** Modelled from the spec: the quartiles, the interquartile range and
    the interval [Q1 - 1.5 IQR, Q3 + 1.5 IQR] of step 5. *)
Definition Q1 (prices : list Q) : Q := percentile cfg (25 # 100) prices.
Definition Q3 (prices : list Q) : Q := percentile cfg (75 # 100) prices.
Definition IQR (prices : list Q) : Q := Q3 prices - Q1 prices.

Definition lower_fence (prices : list Q) : Q :=
  Q1 prices - (15 # 10) * IQR prices.
Definition upper_fence (prices : list Q) : Q :=
  Q3 prices + (15 # 10) * IQR prices.

Definition within_fences (prices : list Q) (p : Q) : bool :=
  Qle_bool (lower_fence prices) p && Qle_bool p (upper_fence prices).

(** Modelled from the spec: step 5, outlier rejection, skipped below
    four prices. *)
Definition reject_outliers (s : ComparableSample) : ComparableSample :=
  if (List.length s <? 4)%nat then s
  else
    let prices := map comparable_price s in
    filter (fun c => within_fences prices (comparable_price c)) s.

(** Modelled from the spec: [normalize(rawListings, query)]. *)
Definition normalize (rawListings : list ScrapedListing)
  (query : QueryAttributes) : CoreError + ComparableSample :=
  match brand query, type query with
  | None, None => inl InvalidQuery
  | _, _ => inr (reject_outliers (candidates query rawListings))
  end.

(** Modelled from the spec: a listing without a usable price; it has
    none at all, or a text that is no number, or a number that is not
    positive. *)
Definition unpriced (l : ScrapedListing) : Prop :=
  match price l with
  | None => True
  | Some raw =>
      match parse_number cfg raw with
      | None => True
      | Some p => p <= 0
      end
  end.

(** ** Price Estimator *)

(** Modelled from the spec: step 6, the confidence of a sample. *)
Definition confidence_of (prices : list Q) : Confidence :=
  if (8 <=? List.length prices)%nat && cv_belowb (3 # 10) prices then High
  else if (3 <=? List.length prices)%nat then Medium
  else Low.

(** Modelled from the spec: the clamp of the result guarantee. *)
Definition clamp (lo hi x : Q) : Q :=
  if Qlt_bool x lo then lo else if Qlt_bool hi x then hi else x.

(** Modelled from the spec: [estimate(sample, condition)], steps 1
    to 6. *)
Definition estimate (sample : ComparableSample) (c : Condition)
  : PriceEstimate :=
  match sample with
  | [] =>
      let d := default_price cfg in
      mkEstimate d (d * (8 # 10), d * (12 # 10)) Low 0
  | _ :: _ =>
      let prices := map comparable_price sample in
      let base := median prices in
      let k := condition_factor cfg c sample in
      let point := round_price cfg prices (base * k) in
      let lo := Q1 prices * k in
      let hi := Q3 prices * k in
      let '(lo, hi) :=
        if Qeq_bool lo hi then (lo * (85 # 100), hi * (115 # 100))
        else (lo, hi) in
      mkEstimate (clamp lo hi point) (lo, hi) (confidence_of prices)
        (List.length sample)
  end.

End WithPolicy.

(** ** A sample policy

    Modelled from the spec: one way of filling in what the specification
    leaves open (price syntax, lookup tables, percentile method, rounding,
    default price), used to run the core on concrete listings. *)

Fixpoint read_digits (s : string) (acc : Z) (n : Z) : Z * Z * string :=
  match s with
  | String c s' =>
      let d := nat_of_ascii c in
      if ((48 <=? d) && (d <=? 57))%nat then
        read_digits s' (10 * acc + Z.of_nat (d - 48))%Z (n + 1)%Z
      else (acc, n, s)
  | EmptyString => (acc, n, s)
  end.

(** Digits, then an optional decimal part after a comma or a point; the
    text that follows (a currency symbol) is ignored. *)
Definition decimal_text (s : string) : option Q :=
  let '(int, ni, rest) := read_digits s 0 0 in
  if (ni =? 0)%Z then None
  else
    match rest with
    | String c rest' =>
        if (Ascii.eqb c ","%char || Ascii.eqb c "."%char)%bool then
          let '(frac, nf, _) := read_digits rest' 0 0 in
          Some (inject_Z int + inject_Z frac / inject_Z (10 ^ nf))
        else Some (inject_Z int)
    | EmptyString => Some (inject_Z int)
    end.

Definition condition_of_text (s : string) : ConditionTag :=
  let t := lowercase s in
  if String.eqb t "new" then Known New
  else if String.eqb t "like-new" then Known LikeNew
  else if String.eqb t "good" then Known Good
  else if String.eqb t "fair" then Known Fair
  else if String.eqb t "poor" then Known Poor
  else Unknown.

Definition size_of_text (s : string) : option string :=
  match s with
  | EmptyString => None
  | _ => if String.eqb (lowercase s) "unknown" then None
         else Some (lowercase s)
  end.

(** Percentile by linear interpolation between the closest ranks. *)
Definition interpolated_percentile (p : Q) (l : list Q) : Q :=
  let s := sort l in
  let h := p * (count l - 1) in
  let k := Z.to_nat (Qfloor h) in
  let lo := nth k s 0 in
  let hi := nth (k + 1) s lo in
  lo + (h - inject_Z (Qfloor h)) * (hi - lo).

(** The factor table of the specification, relative to "good". *)
Definition factor_table (c : Condition) (_ : ComparableSample) : Q :=
  match c with
  | New => 115 # 100
  | LikeNew => 105 # 100
  | Good => 1
  | Fair => 90 # 100
  | Poor => 80 # 100
  end.

Definition is_integer (x : Q) : bool := Qeq_bool x (inject_Z (Qfloor x)).

(** Whole units when every observed price is whole, one decimal
    otherwise. *)
Definition round_to_granularity (prices : list Q) (x : Q) : Q :=
  if forallb is_integer prices then inject_Z (Qfloor (x + (1 # 2)))
  else inject_Z (Qfloor (x * 10 + (1 # 2))) / 10.

Definition sample_policy : Policy :=
  mkPolicy decimal_text condition_of_text size_of_text
    interpolated_percentile factor_table round_to_granularity 15.

(** The scenario of the specification: three plausible prices, one
    unreadable price and one extreme price, for a Nike hoodie. *)
Definition nike_query : QueryAttributes :=
  (mkQuery (Some "Nike") (Some "Felpa") None None (Some "M")
     (Some "good"))%string.

Definition empty_query : QueryAttributes :=
  (mkQuery None None (Some "Nero") None (Some "M") None)%string.

Definition scenario : list ScrapedListing :=
  [ mkListing (Some "12,50€") "Felpa Nike nera" "good" "M";
    mkListing (Some "14€") "felpa NIKE" "new" "L";
    mkListing (Some "13€") "Nike felpa uomo" "usato" "M";
    mkListing (Some "bad") "Felpa Nike" "good" "M";
    mkListing (Some "1000€") "Felpa Nike rara" "good" "M" ]%string.

(** Eight comparables between 12 and 15. *)
Definition tight_sample : ComparableSample :=
  map (fun p => mkComparable p (Known Good) true)
    [12; 13; 13; 14; 14; 14; 15; 15].

Definition unreadable : ScrapedListing :=
  (mkListing (Some "bad") "Felpa Nike" "good" "M")%string.

End PricingCore.

(* ================================================================== *)
(** * More of the JavaScript fragment: digits and white space *)
(* ================================================================== *)

Module JsStrings.

(** A decimal digit, and the integer a run of digits denotes. *)
Definition is_digit (c : code_unit) : bool := ((48 <=? c) && (c <=? 57))%N.

Definition decimal_value (digits : js_string) : Z :=
  fold_left (fun acc c => (10 * acc + (Z.of_N c - 48))%Z) digits 0%Z.

(** A text made of white space only. *)
Definition blank (s : js_string) : Prop := forallb is_white_space s = true.

End JsStrings.

Import JsStrings.

(* ================================================================== *)
(** * aiGenerator.js: the title and the description *)
(* ================================================================== *)

Module AiText.

(** ** Conversions of the JavaScript fragment *)

(** The result of an expression that may throw a TypeError. *)
Inductive outcome (A : Type) : Type :=
| Returns (a : A)
| TypeError.
Arguments Returns {A} a.
Arguments TypeError {A}.

Definition and_then {A B} (m : outcome A) (k : A -> outcome B) : outcome B :=
  match m with
  | Returns a => k a
  | TypeError => TypeError
  end.

Notation "'try' x := m 'in' k" := (and_then m (fun x => k))
  (at level 10, x name, m at level 100, k at level 200).

(** [ToBoolean]: [undefined], [null], [false], zero, NaN and the empty
    string are falsy. *)
Definition ToBoolean (v : js_value) : bool :=
  match v with
  | JUndefined | JNull => false
  | JBool b => b
  | JNum NaN => false
  | JNum (Finite x) => negb (Qeq_bool x 0)
  | JNum _ => true
  | JStr s => negb (String.eqb s EmptyString)
  | JObj _ => true
  end.

Definition has_own (k : string) (o : js_object) : bool :=
  existsb (fun p => String.eqb (fst p) k) o.

Section WithNumberToString.

(** [Number::toString], the runtime's rendering of a Number. *)
Variable Number_toString : js_number -> js_string.

(** [ToString], as a template literal and [+ ' '] apply it.  A string
    value gives its code units.  An object literal is rendered by
    [Object.prototype.toString], unless an own [toString] data property
    shadows that method: no callable conversion is left and the
    conversion throws. *)
Definition ToString (v : js_value) : outcome js_string :=
  match v with
  | JUndefined => Returns (lit "undefined")
  | JNull => Returns (lit "null")
  | JBool true => Returns (lit "true")
  | JBool false => Returns (lit "false")
  | JNum x => Returns (Number_toString x)
  | JStr s => Returns (lit s)
  | JObj o =>
      if has_own "toString" o then TypeError
      else Returns (lit "[object Object]")
  end.

(** [Math.floor] *)
Definition Math_floor (x : Q) : Z := Qfloor x.

(** [const adjectives = [...]] *)
Definition adjectives : list js_string :=
  [lit "Stunning"; lit "Elegant"; lit "Stylish"; lit "Chic"; lit "Premium"].

(** [a[i]] for an integral index, rendered by a template literal: an
    index outside the array reads [undefined]. *)
Definition element_text (a : list js_string) (i : Z) : js_string :=
  if (i <? 0)%Z then lit "undefined"
  else nth (Z.to_nat i) a (lit "undefined").

(** [condition === 'new'] *)
Definition is_new (condition : js_value) : bool :=
  match condition with
  | JStr s => String.eqb s "new"
  | _ => false
  end.

(** The title, given the value [Math.random] returned. *)
Definition title_of_draw (input : js_object) (u : Q) : outcome js_string :=
  let category := lookup_prop "category" input in
  let brand := lookup_prop "brand" input in
  let size := lookup_prop "size" input in
  let condition := lookup_prop "condition" input in
  let adj :=
    element_text adjectives
      (Math_floor (fmul u (inject_Z (Z.of_nat (List.length adjectives))))) in
  try b := (if ToBoolean brand
            then try t := ToString brand in Returns (t ++ lit " ")%list
            else Returns []) in
  try c := ToString category in
  let title := (adj ++ lit " " ++ b ++ c)%list in
  try title := (if ToBoolean size
                then try s := ToString size in
                     Returns (title ++ lit " - Size " ++ s)%list
                else Returns title) in
  let title :=
    if is_new condition then (title ++ lit " - New with Tags")%list
    else title in
  Returns title.

(** [generateAITitle({ category, brand, size, condition })] *)
Definition generateAITitle (input : js_object) : Rand (outcome js_string) :=
  u <- Math_random ;;
  ret (title_of_draw input u).

(** [generateAIDescription({ category, brand, condition })] *)
Definition generateAIDescription (input : js_object) : outcome js_string :=
  let category := lookup_prop "category" input in
  let brand := lookup_prop "brand" input in
  let condition := lookup_prop "condition" input in
  try c := ToString category in
  try b := (if ToBoolean brand then ToString brand
            else Returns (lit "our store")) in
  let desc := (lit "This " ++ c ++ lit " from " ++ b ++ lit " is ")%list in
  let desc :=
    (desc ++ (if is_new condition then lit "brand new with tags, "
              else lit "in excellent condition, "))%list in
  let desc := (desc ++ lit "perfect for any occasion!")%list in
  Returns desc.

End WithNumberToString.

(** Values whose conversion to a string cannot throw. *)
Definition convertible (v : js_value) : Prop :=
  match v with
  | JObj o => has_own "toString" o = false
  | _ => True
  end.

(** [Math.random] returns a binary64 value below 1: at most the
    predecessor of 1, which is [1 - 2^-53]. *)
Definition random_double (u : Q) : Prop :=
  0 <= u /\ u <= 1 - (1 # 2 ^ 53).

(** A rendering of integral Numbers, to run the functions. *)
Definition digits_of_nat (n : nat) : js_string :=
  lit (NilEmpty.string_of_uint (Nat.to_uint n)).

Definition show_number (x : js_number) : js_string :=
  match x with
  | NaN => lit "NaN"
  | PosInfinity => lit "Infinity"
  | NegInfinity => lit "-Infinity"
  | Finite q => digits_of_nat (Z.to_nat (Qfloor q))
  end.

Definition felpa : js_object :=
  [("category"%string, JStr "Felpa"); ("brand"%string, JStr "Nike");
   ("size"%string, JStr "M"); ("condition"%string, JStr "new")].

(** An item with a category only, and a generator stuck at 0.7. *)
Definition top_item : js_object := [("category"%string, JStr "Top")].

Definition stuck_at_seven_tenths : World := mkWorld (fun _ => 7 # 10) 0.

End AiText.

(* ================================================================== *)
(** * formValidator.js: the calls a validation makes *)
(* ================================================================== *)

Module FormValidatorTrace.

(** The error [validateForm] reports for a form without images. *)
Definition image_error : ErrorCall :=
  (None, "Please upload at least one image"%string).

(** The calls [validateField] makes for one required id: none when no
    element has that id. *)
Definition field_errors (document : Document) (i : js_string)
  : list ErrorCall :=
  match getElementById document i with
  | Some field => snd (validateField field record [])
  | None => []
  end.

(** Sample fields. *)
Definition blank_title : Element :=
  mkElement (lit "title-input") (lit "text") (lit "   ").

Definition negative_price : Element :=
  mkElement (lit "price-input") (lit "number") (lit " -5 ").

Definition worded_price : Element :=
  mkElement (lit "price-input") (lit "number") (lit "abc").

End FormValidatorTrace.

(* ================================================================== *)
(** * uiHelpers.js *)
(* ================================================================== *)

Module UiHelpers.

Import AiText.

(** ** [classList]: an ordered set of tokens *)

Definition tokens := list js_string.

Definition contains (t : js_string) (l : tokens) : bool :=
  existsb (js_string_eqb t) l.

(** [classList.add(t)] *)
Definition add (t : js_string) (l : tokens) : tokens :=
  if contains t l then l else (l ++ [t])%list.

(** [classList.remove(t)] *)
Definition remove (t : js_string) (l : tokens) : tokens :=
  filter (fun x => negb (js_string_eqb x t)) l.

(** ** The elements the helpers act on

    An overlay or a toast, as the helpers see it: its id, its class list,
    and the text of its first [<p>] and of its first [<span>] descendant,
    [None] when it has none.  The page is the list of these elements in
    tree order; none of them lies inside the [<p>] or the [<span>] of
    another, so that writing a text removes no element. *)
Record Widget : Type := mkWidget {
  widget_id : js_string;
  classList : tokens;
  paragraph : option js_string;
  span : option js_string
}.

Definition Page := list Widget.

Definition getElementById (page : Page) (i : js_string) : option Widget :=
  find (fun w => js_string_eqb (widget_id w) i) page.

(** The page after the first element with id [i] was replaced by [w']. *)
Fixpoint replace (i : js_string) (w' : Widget) (page : Page) : Page :=
  match page with
  | [] => []
  | w :: rest =>
      if js_string_eqb (widget_id w) i then w' :: rest
      else w :: replace i w' rest
  end.

Definition with_classes (w : Widget) (l : tokens) : Widget :=
  mkWidget (widget_id w) l (paragraph w) (span w).

(** [showLoadingOverlay({ overlayId, message })]: nothing happens without
    the overlay; [querySelector('p')] is [null] for an overlay without a
    [<p>], and writing its [textContent] throws before anything
    changes. *)
Definition showLoadingOverlay (overlayId message : js_string) (page : Page)
  : outcome Page :=
  match getElementById page overlayId with
  | Some overlay =>
      match paragraph overlay with
      | None => TypeError
      | Some _ =>
          let overlay :=
            mkWidget (widget_id overlay) (classList overlay) (Some message)
              (span overlay) in
          Returns
            (replace overlayId
               (with_classes overlay (remove (lit "hidden") (classList overlay)))
               page)
      end
  | None => Returns page
  end.

(** [hideLoadingOverlay(overlayId)] *)
Definition hideLoadingOverlay (overlayId : js_string) (page : Page) : Page :=
  match getElementById page overlayId with
  | Some overlay =>
      replace overlayId
        (with_classes overlay (add (lit "hidden") (classList overlay))) page
  | None => page
  end.

(** An element is shown when its class list lacks [hidden]. *)
Definition shown (page : Page) (i : js_string) : Prop :=
  exists w, getElementById page i = Some w
            /\ contains (lit "hidden") (classList w) = false.

Definition hidden (page : Page) (i : js_string) : Prop :=
  exists w, getElementById page i = Some w
            /\ contains (lit "hidden") (classList w) = true.

(** ** Toasts and timers

    The state of the page with the callbacks [setTimeout] holds.  Every
    timer of [showToast] has the same delay, so the timers fire in the
    order they were set; a pending timer is recorded by the id of the
    toast its callback hides. *)
Record Runtime : Type := mkRuntime {
  page : Page;
  timers : list js_string
}.

(** [showToast({ toastId, message, type = 'success' })]; [type] is not
    used. *)
Definition showToast (toastId message type : js_string) (rt : Runtime)
  : outcome Runtime :=
  match getElementById (page rt) toastId with
  | None => Returns rt
  | Some toast =>
      match span toast with
      | None => TypeError
      | Some _ =>
          let toast :=
            mkWidget (widget_id toast)
              (remove (lit "translate-x-full") (classList toast))
              (paragraph toast) (Some message) in
          Returns (mkRuntime (replace toastId toast (page rt))
                     (timers rt ++ [toastId]))
      end
  end.

(** The oldest pending timer fires:
    [() => toast.classList.add('translate-x-full')]. *)
Definition timer_fires (rt : Runtime) : Runtime :=
  match timers rt with
  | [] => rt
  | toastId :: later =>
      match getElementById (page rt) toastId with
      | Some toast =>
          mkRuntime
            (replace toastId
               (with_classes toast
                  (add (lit "translate-x-full") (classList toast)))
               (page rt))
            later
      | None => mkRuntime (page rt) later
      end
  end.

(** A toast is on screen when its class list lacks [translate-x-full]. *)
Definition on_screen (rt : Runtime) (i : js_string) : bool :=
  match getElementById (page rt) i with
  | Some w => negb (contains (lit "translate-x-full") (classList w))
  | None => false
  end.

Definition toast_text (rt : Runtime) (i : js_string) : option js_string :=
  match getElementById (page rt) i with
  | Some w => span w
  | None => None
  end.

(** ** Animations

    An element with its class list and the classes its pending
    [animationend] listeners will remove; the listeners are registered
    with [{ once: true }]. *)
Record Animated : Type := mkAnimated {
  classes : tokens;
  on_animationend : list js_string
}.

(** [animateElement(element, animationClass)] *)
Definition animateElement (element : Animated) (animationClass : js_string)
  : Animated :=
  mkAnimated (add animationClass (classes element))
    (on_animationend element ++ [animationClass]).

(** An [animationend] event reaches the element: every pending listener
    runs, in the order of registration, and is removed. *)
Definition animationend (element : Animated) : Animated :=
  mkAnimated
    (fold_left (fun l c => remove c l) (on_animationend element)
       (classes element))
    [].

(** Sample page: a hidden overlay and a toast off screen. *)
Definition sample_page : Page :=
  [ mkWidget (lit "loading") [lit "overlay"; lit "hidden"]
      (Some (lit "Loading")) None;
    mkWidget (lit "toast") [lit "toast"; lit "translate-x-full"]
      None (Some []) ].

End UiHelpers.

(* ================================================================== *)
(** * upload.js *)
(* ================================================================== *)

Module Upload.

Import UiHelpers.

(** ** Events and listeners *)

Inductive EventType : Type :=
| click | change | dragenter | dragover | dragleave | drop.

Inductive Target : Type := DropZone | FileInput.

(** The bodies of the listeners [setupImageUpload] registers. *)
Inductive Action : Type :=
| OpenDialog      (* () => fileInput.click() *)
| HandleChange    (* (e) => handleFiles(e.target.files) *)
| PreventAndStop  (* (e) => { e.preventDefault(); e.stopPropagation(); } *)
| Highlight       (* () => dropZone.classList.add('drag-over') *)
| Unhighlight     (* () => dropZone.classList.remove('drag-over') *)
| HandleDrop.     (* (e) => handleFiles(e.dataTransfer.files) *)

Definition Listener : Type := Target * EventType * Action.

Definition EventType_eqb (a b : EventType) : bool :=
  match a, b with
  | click, click | change, change | dragenter, dragenter
  | dragover, dragover | dragleave, dragleave | drop, drop => true
  | _, _ => false
  end.

Definition Target_eqb (a b : Target) : bool :=
  match a, b with
  | DropZone, DropZone | FileInput, FileInput => true
  | _, _ => false
  end.

(** [setupImageUpload({ dropZoneId, inputId, previewContainerId,
    onFilesAdded })], given whether the drop zone and the file input
    exist: the listeners registered, in order, and whether the call
    threw.  [addEventListener] on a missing element throws; the preview
    container is looked up and never used. *)
Definition setupImageUpload (has_dropZone has_fileInput : bool)
  : list Listener * bool :=
  if negb has_dropZone then ([], true)
  else
    let l := [(DropZone, click, OpenDialog)] in
    if negb has_fileInput then (l, true)
    else
      let l := (l ++ [(FileInput, change, HandleChange)])%list in
      let l :=
        (l ++ map (fun evt => (DropZone, evt, PreventAndStop))
               [dragenter; dragover; dragleave; drop])%list in
      let l :=
        (l ++ map (fun evt => (DropZone, evt, Highlight))
               [dragenter; dragover])%list in
      let l :=
        (l ++ map (fun evt => (DropZone, evt, Unhighlight))
               [dragleave; drop])%list in
      let l := (l ++ [(DropZone, drop, HandleDrop)])%list in
      (l, false).

(** A file, by its name. *)
Definition File := js_string.

(** An event reaching one of the two elements, with the files it carries
    ([e.target.files] of a change, [e.dataTransfer.files] of a drop).
    Neither element lies inside the other: an event of one does not
    bubble to the listeners of the other. *)
Record Event : Type := mkEvent {
  target : Target;
  type : EventType;
  files : list File
}.

(** What the listeners act on: the class list of the drop zone, the
    number of calls of [fileInput.click()], the arguments of the calls of
    [onFilesAdded], and whether [preventDefault] and [stopPropagation]
    were called on the event being dispatched. *)
Record State : Type := mkState {
  zone_classes : tokens;
  dialogs : nat;
  added : list (list File);
  preventDefault_called : bool;
  stopPropagation_called : bool
}.

(** [handleFiles(files)]: [Array.from(files)] is passed to
    [onFilesAdded]. *)
Definition handleFiles (fs : list File) (st : State) : State :=
  mkState (zone_classes st) (dialogs st) (added st ++ [fs])
    (preventDefault_called st) (stopPropagation_called st).

(** The body of a listener, run on an event; both elements exist. *)
Definition run (a : Action) (e : Event) (st : State) : State :=
  match a with
  | OpenDialog =>
      mkState (zone_classes st) (S (dialogs st)) (added st)
        (preventDefault_called st) (stopPropagation_called st)
  | HandleChange => handleFiles (files e) st
  | PreventAndStop =>
      mkState (zone_classes st) (dialogs st) (added st) true true
  | Highlight =>
      mkState (add (lit "drag-over") (zone_classes st)) (dialogs st)
        (added st) (preventDefault_called st) (stopPropagation_called st)
  | Unhighlight =>
      mkState (remove (lit "drag-over") (zone_classes st)) (dialogs st)
        (added st) (preventDefault_called st) (stopPropagation_called st)
  | HandleDrop => handleFiles (files e) st
  end.

(** Dispatch of an event: the listeners of its target for its type run
    in the order of registration. *)
Definition dispatch (listeners : list Listener) (st : State) (e : Event)
  : State :=
  fold_left
    (fun st '(t, ty, a) =>
       if Target_eqb t (target e) && EventType_eqb ty (type e)
       then run a e st else st)
    listeners
    (mkState (zone_classes st) (dialogs st) (added st) false false).

Definition dispatch_all (listeners : list Listener) (st : State)
  (events : list Event) : State :=
  fold_left (dispatch listeners) events st.

(** What a user sees of the drop zone. *)
Definition highlighted (st : State) : bool :=
  contains (lit "drag-over") (zone_classes st).

(** The files an event hands over: those of a change of the file input
    and those of a drop on the drop zone. *)
Definition handed_over (e : Event) : list (list File) :=
  match target e, type e with
  | FileInput, change => [files e]
  | DropZone, drop => [files e]
  | _, _ => []
  end.

Definition is_drag (ty : EventType) : bool :=
  match ty with
  | dragenter | dragover | dragleave | drop => true
  | _ => false
  end.

Definition installed : list Listener := fst (setupImageUpload true true).

Definition idle : State := mkState [lit "drop-zone"] 0 [] false false.

End Upload.

(* ================================================================== *)
(** * previewUpdater.js *)
(* ================================================================== *)

Module PreviewUpdater.

Import AiText.

(** ** The preview elements

    An element of the preview, as [updatePreview] sees it: its id, its
    text, its [style.display], and the [src] and [alt] of its first
    [<img>] descendant, [None] when it has none.  The page is the list of
    these elements in tree order; none of them lies inside another, so
    that writing the text of one removes only its own descendants. *)
Record Node : Type := mkNode {
  node_id : js_string;
  textContent : js_string;
  display : js_string;
  img : option (js_string * js_string)
}.

Definition Page := list Node.

Definition getElementById (page : Page) (i : js_string) : option Node :=
  find (fun n => js_string_eqb (node_id n) i) page.

(** The page after [f] was applied to the first element [p] holds of. *)
Fixpoint update (p : Node -> bool) (f : Node -> Node) (page : Page) : Page :=
  match page with
  | [] => []
  | n :: rest => if p n then f n :: rest else n :: update p f rest
  end.

Definition has_id (i : js_string) (n : Node) : bool :=
  js_string_eqb (node_id n) i.

(** [el.textContent = text]: the text replaces the children of the
    element. *)
Definition write_text (text : js_string) (n : Node) : Node :=
  mkNode (node_id n) text (display n) None.

Definition write_display (d : js_string) (n : Node) : Node :=
  mkNode (node_id n) (textContent n) d (img n).

(** A run of statements: it ends normally or by a TypeError, and the
    page holds what was written until then. *)
Inductive completion : Type :=
| Done (page : Page)
| Threw (page : Page).

Definition page_of (c : completion) : Page :=
  match c with Done p | Threw p => p end.

Definition next (c : completion) (k : Page -> completion) : completion :=
  match c with
  | Done p => k p
  | Threw p => Threw p
  end.

(** [document.getElementById(i).textContent = text] *)
Definition set_text (i text : js_string) (page : Page) : completion :=
  match getElementById page i with
  | Some _ => Done (update (has_id i) (write_text text) page)
  | None => Threw page
  end.

(** [setTag(id, text)] *)
Definition setTag (i text : js_string) (page : Page) : Page :=
  match getElementById page i with
  | Some _ =>
      update (has_id i)
        (fun el =>
           write_display
             (if js_string_eqb text [] then lit "none"
              else lit "inline-block")
             (write_text text el))
        page
  | None => page
  end.

(** ** The state of the form and the ids of the preview *)

Record Image : Type := mkImage { url : js_string; name : js_string }.

Record FormState : Type := mkFormState {
  title : js_string;
  description : js_string;
  price : js_string;
  categoryText : js_string;
  size : js_string;
  conditionText : js_string;
  images : list Image;
  currentImageIndex : Z
}.

Record PreviewIds : Type := mkPreviewIds {
  title_id : js_string;
  description_id : js_string;
  price_id : js_string;
  category_id : js_string;
  size_id : js_string;
  condition_id : js_string;
  image_id : js_string
}.

(** [a || b] on strings *)
Definition or_else (a b : js_string) : js_string :=
  if js_string_eqb a [] then b else a.

(** The euro sign, U+20AC. *)
Definition euro : code_unit := 8364%N.

Definition digits (n : Z) : js_string :=
  lit (NilEmpty.string_of_uint (N.to_uint (Z.to_N n))).

Section WithRuntime.

(** [Number::toString] and [String.prototype.toUpperCase] of the
    runtime. *)
Variable Number_toString : js_number -> js_string.
Variable toUpperCase : js_string -> js_string.

(** [x.toFixed(2)]: a Number that is not finite is rendered by name, one
    whose magnitude reaches [10^21] by [Number::toString]; otherwise the
    integer [n] nearest to [100 x] (the larger one on a tie) is written
    with a point before its last two digits, after a minus sign when [x]
    is negative. *)
Definition toFixed2 (x : js_number) : js_string :=
  match x with
  | NaN => lit "NaN"
  | PosInfinity => lit "Infinity"
  | NegInfinity => lit "-Infinity"
  | Finite q =>
      if Qle_bool (10 ^ 21) (Qabs q) then Number_toString x
      else
        let n := Qfloor (Qabs q * 100 + (1 # 2)) in
        let cents := (n mod 100)%Z in
        ((if Qle_bool 0 q then [] else lit "-")
           ++ digits (n / 100)
           ++ lit "."
           ++ digits (cents / 10) ++ digits (cents mod 10))%list
  end.

(** [price ? `€${parseFloat(price).toFixed(2)}` : '€0.00'] *)
Definition price_label (price : js_string) : js_string :=
  if js_string_eqb price [] then (euro :: lit "0.00")%list
  else (euro :: toFixed2 (parseFloat price))%list.

(** [size ? `Size: ${size.toUpperCase()}` : ''] *)
Definition size_label (size : js_string) : js_string :=
  if js_string_eqb size [] then []
  else (lit "Size: " ++ toUpperCase size)%list.

(** [images[currentImageIndex]] *)
Definition current_image (st : FormState) : option Image :=
  if (currentImageIndex st <? 0)%Z then None
  else nth_error (images st) (Z.to_nat (currentImageIndex st)).

(** The first [<img>] below an element with the id of the image
    container: [document.querySelector(`#${previewIds.image} img`)]. *)
Definition holds_img (i : js_string) (n : Node) : bool :=
  has_id i n && match img n with Some _ => true | None => false end.

Definition set_image (i : js_string) (st : FormState) (page : Page)
  : completion :=
  match find (holds_img i) page with
  | Some _ =>
      match images st with
      | [] => Done page
      | _ :: _ =>
          match current_image st with
          | Some im =>
              Done (update (holds_img i)
                      (fun n =>
                         mkNode (node_id n) (textContent n) (display n)
                           (Some (url im, name im)))
                      page)
          | None => Threw page
          end
      end
  | None => Done page
  end.

(** [updatePreview({ previewIds, getState })], on the state [getState]
    returns. *)
Definition updatePreview (previewIds : PreviewIds) (st : FormState)
  (page : Page) : completion :=
  next (set_text (title_id previewIds)
          (or_else (title st) (lit "Your Amazing Item")) page)
  (fun page =>
  next (set_text (description_id previewIds)
          (or_else (description st) (lit "Describe your item...")) page)
  (fun page =>
  next (set_text (price_id previewIds) (price_label (price st)) page)
  (fun page =>
  let page := setTag (category_id previewIds) (categoryText st) page in
  let page := setTag (size_id previewIds) (size_label (size st)) page in
  let page := setTag (condition_id previewIds) (conditionText st) page in
  set_image (image_id previewIds) st page))).

End WithRuntime.

(** The ids are pairwise distinct. *)
Definition distinct_ids (ids : PreviewIds) : Prop :=
  NoDup [title_id ids; description_id ids; price_id ids; category_id ids;
         size_id ids; condition_id ids; image_id ids].

(** The element [i] names is on the page and reads [text]. *)
Definition shows (page : Page) (i text : js_string) : Prop :=
  exists n, getElementById page i = Some n /\ textContent n = text.

(** The tag [i] names, when it is on the page, reads [text], and is laid
    out exactly when the text is not empty. *)
Definition tag_shows (page : Page) (i text : js_string) : Prop :=
  forall n, getElementById page i = Some n ->
    textContent n = text
    /\ (display n = lit "none" <-> text = [])
    /\ (display n = lit "inline-block" <-> text <> []).

(** A write that keeps the id of the element. *)
Definition keeps_id (f : Node -> Node) : Prop :=
  forall n, node_id (f n) = node_id n.

(** ASCII letters upper-cased, to run the function. *)
Definition ascii_upper (s : js_string) : js_string :=
  map (fun c => if ((97 <=? c) && (c <=? 122))%N then (c - 32)%N else c) s.

(** A sample preview. *)
Definition preview_ids : PreviewIds :=
  mkPreviewIds (lit "p-title") (lit "p-description") (lit "p-price")
    (lit "p-category") (lit "p-size") (lit "p-condition") (lit "p-image").

Definition preview_page : Page :=
  [ mkNode (lit "p-title") [] [] None;
    mkNode (lit "p-description") [] [] None;
    mkNode (lit "p-price") [] [] None;
    mkNode (lit "p-size") [] [] None;
    mkNode (lit "p-image") [] [] (Some ([], [])) ].

Definition draft : FormState :=
  mkFormState (lit "Felpa Nike") [] (lit "abc") (lit "Felpe") (lit "m") []
    [mkImage (lit "blob:1") (lit "front.jpg")] 0.

End PreviewUpdater.

(* ================================================================== *)
(** * Facts about the JavaScript fragment *)
(* ================================================================== *)

Module JsFacts.

Lemma pow2_pos (e : Z) : 0 < 2 ^ e.
Proof. apply Qpower_0_lt. reflexivity. Qed.

Lemma pow2_add (a b : Z) : 2 ^ (a + b) == 2 ^ a * 2 ^ b.
Proof. apply Qpower_plus. discriminate. Qed.

Lemma pow2_le (a b : Z) : (a <= b)%Z -> 2 ^ a <= 2 ^ b.
Proof. intros H. apply Qpower_le_compat_l; [exact H | discriminate]. Qed.

Lemma pow2_lt (a b : Z) : (a < b)%Z -> 2 ^ a < 2 ^ b.
Proof. intros H. apply Qpower_lt_compat_l; [exact H | reflexivity]. Qed.

Lemma pow2_Z (a : Z) : (0 <= a)%Z -> inject_Z (2 ^ a) == 2 ^ a.
Proof. intros H. apply (Zpower_Qpower 2 a H). Qed.

Lemma Q_num_den (x : Q) : x * inject_Z (Zpos (Qden x)) == inject_Z (Qnum x).
Proof.
  destruct x as [n d]; simpl. unfold Qeq, Qmult, inject_Z; simpl. lia.
Qed.

Lemma Qnum_pos (x : Q) : 0 < x -> (0 < Qnum x)%Z.
Proof. destruct x as [n d]. unfold Qlt; simpl. lia. Qed.

(** [ilog2] brackets its argument between two consecutive powers of 2. *)
Lemma ilog2_spec (x : Q) : 0 < x -> 2 ^ ilog2 x <= x /\ x < 2 ^ (ilog2 x + 1).
Proof.
  intros Hx. pose proof (Qnum_pos x Hx) as Hn.
  pose proof (Z.log2_spec (Qnum x) Hn) as [Hn1 Hn2].
  pose proof (Z.log2_spec (Zpos (Qden x)) (Pos2Z.is_pos _)) as [Hd1 Hd2].
  pose proof (Z.log2_nonneg (Qnum x)) as Ha.
  pose proof (Z.log2_nonneg (Zpos (Qden x))) as Hb.
  set (a := Z.log2 (Qnum x)) in *. set (b := Z.log2 (Zpos (Qden x))) in *.
  pose proof (Q_num_den x) as E.
  assert (Hd : 0 < inject_Z (Zpos (Qden x))) by reflexivity.
  unfold Z.succ in *.
  rewrite Zle_Qle in Hn1, Hd1. rewrite Zlt_Qlt in Hn2, Hd2.
  rewrite pow2_Z in Hn1, Hn2, Hd1, Hd2 by lia.
  set (D := inject_Z (Zpos (Qden x))) in *.
  set (N := inject_Z (Qnum x)) in *.
  assert (Hup : x < 2 ^ (a - b + 1)).
  { apply (Qmult_lt_r _ _ (2 ^ b) (pow2_pos b)).
    rewrite <- pow2_add. replace (a - b + 1 + b)%Z with (a + 1)%Z by ring.
    apply Qle_lt_trans with (x * D).
    - apply Qmult_le_l; [exact Hx | exact Hd1].
    - rewrite E. exact Hn2. }
  assert (Hlo : 2 ^ (a - b - 1) <= x).
  { apply (Qmult_le_r _ _ (2 ^ (b + 1)) (pow2_pos _)).
    rewrite <- pow2_add. replace (a - b - 1 + (b + 1))%Z with a by ring.
    apply Qle_trans with (x * D).
    - rewrite E. exact Hn1.
    - apply Qmult_le_l; [exact Hx | apply Qlt_le_weak; exact Hd2]. }
  unfold ilog2. fold a b.
  destruct (Qle_bool (2 ^ (a - b)) x) eqn:Hc.
  - apply Qle_bool_iff in Hc. split; assumption.
  - split; [exact Hlo|].
    replace (a - b - 1 + 1)%Z with (a - b)%Z by ring.
    apply Qnot_le_lt. intros H. apply Qle_bool_iff in H. congruence.
Qed.

Lemma ilog2_mono (x y : Q) : 0 < x -> x <= y -> (ilog2 x <= ilog2 y)%Z.
Proof.
  intros Hx Hxy.
  assert (Hy : 0 < y) by (eapply Qlt_le_trans; eauto).
  destruct (ilog2_spec x Hx) as [Lx _]. destruct (ilog2_spec y Hy) as [_ Uy].
  destruct (Z_le_gt_dec (ilog2 x) (ilog2 y)) as [H|H]; [exact H|exfalso].
  assert (2 ^ (ilog2 y + 1) <= 2 ^ ilog2 x) by (apply pow2_le; lia).
  apply (Qlt_irrefl y). eapply Qlt_le_trans; [exact Uy|].
  eapply Qle_trans; [exact H0|]. eapply Qle_trans; eauto.
Qed.

Lemma rhe_bounds (x : Q) :
  (Qfloor x <= round_half_even x <= Qfloor x + 1)%Z.
Proof.
  unfold round_half_even.
  destruct (Qcompare _ _); [destruct (Z.even _)| |]; lia.
Qed.

Lemma rhe_mono (x y : Q) : x <= y -> (round_half_even x <= round_half_even y)%Z.
Proof.
  intros Hxy. pose proof (Qfloor_resp_le x y Hxy) as Hf.
  destruct (Z.eq_dec (Qfloor x) (Qfloor y)) as [E|NE].
  - unfold round_half_even. rewrite <- E.
    destruct (Qcompare_spec (x - inject_Z (Qfloor x)) (1 # 2)) as [H1|H1|H1];
    destruct (Qcompare_spec (y - inject_Z (Qfloor x)) (1 # 2)) as [H2|H2|H2];
    try destruct (Z.even _); try lia; exfalso; lra.
  - pose proof (rhe_bounds x). pose proof (rhe_bounds y). lia.
Qed.

Lemma rhe_Z (n : Z) : round_half_even (inject_Z n) = n.
Proof.
  unfold round_half_even. rewrite Qfloor_Z.
  destruct (Qcompare_spec (inject_Z n - inject_Z n) (1 # 2)) as [H|H|H];
    [exfalso; lra | reflexivity | exfalso; lra].
Qed.

Lemma ulp_exp_mono (x y : Q) : 0 < x -> x <= y -> (ulp_exp x <= ulp_exp y)%Z.
Proof. intros Hx Hxy. pose proof (ilog2_mono x y Hx Hxy). unfold ulp_exp. lia. Qed.

(** A positive real and the binade that holds it: the rounded value stays
    inside the closed binade. *)
Lemma b64_pos_lower (y : Q) :
  0 < y -> (-1022 <= ilog2 y)%Z -> 2 ^ ilog2 y <= b64_pos y.
Proof.
  intros Hy Hl. destruct (ilog2_spec y Hy) as [Lo _].
  unfold b64_pos, ulp_exp. rewrite Z.max_l by lia.
  set (L := ilog2 y) in *.
  assert (E : 2 ^ L == inject_Z (2 ^ 52) * 2 ^ (L - 52)).
  { rewrite pow2_Z by lia. rewrite <- pow2_add. now replace (52 + (L - 52))%Z with L by ring. }
  rewrite E. apply Qmult_le_compat_r; [|apply Qlt_le_weak, pow2_pos].
  rewrite <- Zle_Qle. rewrite <- (rhe_Z (2 ^ 52)) at 1. apply rhe_mono.
  apply Qle_shift_div_l; [apply pow2_pos|]. rewrite <- E. exact Lo.
Qed.

Lemma b64_pos_upper (x : Q) :
  0 < x -> b64_pos x <= 2 ^ (Z.max (ilog2 x) (-1022) + 1).
Proof.
  intros Hx. destruct (ilog2_spec x Hx) as [_ Up].
  unfold b64_pos, ulp_exp.
  set (M := Z.max (ilog2 x) (-1022)) in *.
  assert (E : 2 ^ (M + 1) == inject_Z (2 ^ 53) * 2 ^ (M - 52)).
  { rewrite pow2_Z by lia. rewrite <- pow2_add. now replace (53 + (M - 52))%Z with (M + 1)%Z by ring. }
  rewrite E. apply Qmult_le_compat_r; [|apply Qlt_le_weak, pow2_pos].
  rewrite <- Zle_Qle. rewrite <- (rhe_Z (2 ^ 53)) at 1. apply rhe_mono.
  apply Qle_shift_div_r; [apply pow2_pos|]. rewrite <- E.
  apply Qlt_le_weak. eapply Qlt_le_trans; [exact Up|]. apply pow2_le. lia.
Qed.

Lemma b64_pos_mono (x y : Q) : 0 < x -> x <= y -> b64_pos x <= b64_pos y.
Proof.
  intros Hx Hxy.
  assert (Hy : 0 < y) by (eapply Qlt_le_trans; eauto).
  pose proof (ilog2_mono x y Hx Hxy) as Hl.
  destruct (Z.eq_dec (ulp_exp x) (ulp_exp y)) as [E|NE].
  - unfold b64_pos. rewrite E.
    apply Qmult_le_compat_r; [|apply Qlt_le_weak, pow2_pos].
    rewrite <- Zle_Qle. apply rhe_mono.
    apply Qmult_le_compat_r; [exact Hxy|].
    apply Qlt_le_weak, Qinv_lt_0_compat, pow2_pos.
  - unfold ulp_exp in NE.
    assert (HL : (-1022 < ilog2 y /\ ilog2 x < ilog2 y)%Z) by lia.
    eapply Qle_trans; [apply (b64_pos_upper x Hx)|].
    eapply Qle_trans; [|apply (b64_pos_lower y Hy); lia].
    apply pow2_le. lia.
Qed.

Lemma b64_pos_nonneg (x : Q) : 0 < x -> 0 <= b64_pos x.
Proof.
  intros Hx. unfold b64_pos.
  apply Qmult_le_0_compat; [|apply Qlt_le_weak, pow2_pos].
  change 0 with (inject_Z 0). rewrite <- Zle_Qle.
  rewrite <- (rhe_Z 0). apply rhe_mono.
  apply Qlt_le_weak, Qlt_shift_div_l; [apply pow2_pos|].
  change (inject_Z 0) with 0. rewrite Qmult_0_l. exact Hx.
Qed.

Lemma b64_cases (x : Q) :
  (x == 0 /\ b64 x = 0) \/
  (0 < x /\ b64 x = b64_pos x) \/
  (x < 0 /\ b64 x = - b64_pos (- x)).
Proof.
  destruct x as [[|p|p] d]; unfold b64; simpl.
  - left. split; reflexivity.
  - right; left. split; reflexivity.
  - right; right. split; reflexivity.
Qed.

(** Rounding to binary64 is monotone. *)
Theorem b64_mono (x y : Q) : x <= y -> b64 x <= b64 y.
Proof.
  intros Hxy.
  destruct (b64_cases x) as [[Hx Ex]|[[Hx Ex]|[Hx Ex]]];
  destruct (b64_cases y) as [[Hy Ey]|[[Hy Ey]|[Hy Ey]]];
  rewrite Ex, Ey; try (exfalso; lra).
  - apply Qle_refl.
  - now apply b64_pos_nonneg.
  - now apply b64_pos_mono.
  - assert (0 <= b64_pos (- x)) by (apply b64_pos_nonneg; lra). lra.
  - assert (0 <= b64_pos (- x)) by (apply b64_pos_nonneg; lra).
    assert (0 <= b64_pos y) by (apply b64_pos_nonneg; lra). lra.
  - apply Qopp_le_compat. apply b64_pos_mono; lra.
Qed.

Lemma b64_compat (x y : Q) : x == y -> b64 x == b64 y.
Proof.
  intros E. apply Qle_antisym; apply b64_mono; rewrite E; apply Qle_refl.
Qed.

(** The model on known binary64 values: 0.1 is 3602879701896397 / 2^55,
    a value below half the least subnormal rounds to 0, and the integers
    of the price formula are exact. *)
Example b64_one_tenth : b64 (1 # 10) == 3602879701896397 # 36028797018963968.
Proof. vm_compute. reflexivity. Qed.

Example b64_underflow : b64 (1 # 10 ^ 400) == 0.
Proof. vm_compute. reflexivity. Qed.

Example b64_small_integers : b64 20 == 20 /\ b64 30 == 30 /\ b64 50 == 50.
Proof. repeat split; vm_compute; reflexivity. Qed.

Example parseFloat_prefix : parseFloat (lit "  12.5e1xyz") = to_number 125.
Proof. vm_compute. reflexivity. Qed.

Example parseFloat_not_a_number :
  parseFloat (lit "abc") = NaN /\ parseFloat (lit ".") = NaN.
Proof. split; reflexivity. Qed.

Example parseFloat_tiny_is_zero :
  js_le (parseFloat (lit "1e-400")) (Finite 0) = true.
Proof. vm_compute. reflexivity. Qed.

Example parseFloat_overflow : parseFloat (lit "1e400") = PosInfinity.
Proof. vm_compute. reflexivity. Qed.

Example trim_spaces : trim (lit "  a b  ") = lit "a b".
Proof. reflexivity. Qed.

Lemma Math_round_mono (x y : Q) : x <= y -> (Math_round x <= Math_round y)%Z.
Proof. intros H. unfold Math_round. apply Qfloor_resp_le. lra. Qed.

Lemma lookup_prop_set (k : string) (v : js_value) (o : js_object) :
  lookup_prop k (js_set k v o) = v.
Proof. unfold js_set; simpl. now rewrite String.eqb_refl. Qed.

End JsFacts.

Import JsFacts.

(* ================================================================== *)
(** * aiGenerator.js: the price is a function of the draw alone *)
(* ================================================================== *)

Module AiGeneratorFacts.

Lemma generateAIPrice_draw (input : js_object) (w : World) :
  fst (generateAIPrice input w) = price_of_draw (next_draw w).
Proof. reflexivity. Qed.

Lemma price_of_draw_mono (u v : Q) :
  u <= v -> (price_of_draw u <= price_of_draw v)%Z.
Proof.
  intros H. unfold price_of_draw, fadd, fmul.
  apply Math_round_mono, b64_mono.
  assert (b64 (u * 30) <= b64 (v * 30)) by (apply b64_mono; lra).
  lra.
Qed.

Lemma price_of_draw_proper (u v : Q) :
  u == v -> price_of_draw u = price_of_draw v.
Proof.
  intros E. apply Z.le_antisymm; apply price_of_draw_mono; rewrite E; apply Qle_refl.
Qed.

Lemma price_of_draw_bounds (u : Q) :
  unit_interval u -> (20 <= price_of_draw u <= 50)%Z.
Proof.
  intros [H0 H1]. split.
  - change 20%Z with (price_of_draw 0). now apply price_of_draw_mono.
  - change 50%Z with (price_of_draw 1). apply price_of_draw_mono. lra.
Qed.

(** C8: for every input object and every value of [Math.random] in
    [0, 1), [generateAIPrice] returns an integer between 20 and 50
    inclusive, and any other input object, whatever its [category] and
    [condition] fields, gets the same price on the same draw. *)
Theorem generateAIPrice_range_and_independence
  (input input' : js_object) (w : World) :
  unit_interval (next_draw w) ->
  (20 <= fst (generateAIPrice input w) <= 50)%Z
  /\ fst (generateAIPrice input' w) = fst (generateAIPrice input w).
Proof.
  intros Hu. rewrite !generateAIPrice_draw. split.
  - now apply price_of_draw_bounds.
  - reflexivity.
Qed.

Lemma generateAIPrice_range_and_independence_witness :
  unit_interval (next_draw alternating)
  /\ (20 <= fst (generateAIPrice hoodie alternating) <= 50)%Z
  /\ fst (generateAIPrice (with_condition (JStr "new") hoodie) alternating)
     = fst (generateAIPrice hoodie alternating).
Proof.
  assert (H : unit_interval (next_draw alternating)).
  { split; [apply Qle_refl | reflexivity]. }
  split; [exact H|].
  exact (generateAIPrice_range_and_independence
           hoodie (with_condition (JStr "new") hoodie) alternating H).
Defined.

Lemma alternating_fair : fair alternating.
Proof.
  intros n. unfold alternating; simpl. destruct (Nat.even n); split;
    solve [apply Qle_refl | reflexivity | discriminate].
Qed.

(** C1 fails on the code: with a generator that returns 0 and then 1/2,
    two calls in a row on the same argument return 20 and 35. *)
Lemma pricing_not_deterministic : ~ pricing_deterministic.
Proof.
  intros H. specialize (H hoodie alternating alternating_fair).
  vm_compute in H. discriminate H.
Qed.

(** C1, amended: two runs on the same input give the same output
    whenever [Math.random] returns the same value in both; the output is
    decided by that value alone. *)
Theorem generateAIPrice_deterministic_given_draw
  (input : js_object) (w1 w2 : World) :
  next_draw w1 == next_draw w2 ->
  fst (generateAIPrice input w1) = fst (generateAIPrice input w2).
Proof.
  intros E. rewrite !generateAIPrice_draw. now apply price_of_draw_proper.
Qed.

Lemma generateAIPrice_deterministic_given_draw_witness :
  next_draw alternating == next_draw stuck_at_zero
  /\ fst (generateAIPrice hoodie alternating)
     = fst (generateAIPrice hoodie stuck_at_zero).
Proof.
  assert (E : next_draw alternating == next_draw stuck_at_zero) by reflexivity.
  split; [exact E|].
  exact (generateAIPrice_deterministic_given_draw hoodie alternating
           stuck_at_zero E).
Defined.

(** C2 fails on the code: the function returns a bare Number, on which
    [price_range] reads as [undefined]. *)
Lemma no_price_range : ~ positive_with_range.
Proof.
  intros H. destruct (H hoodie alternating alternating_fair)
    as [_ (lo & hi & R & _)].
  vm_compute in R. discriminate R.
Qed.

(** C2, amended: for every input and every value of [Math.random] in
    [0, 1) the returned price is strictly positive and finite, an integer
    of at most 50; the returned value is a bare Number and has no
    [price_range]. *)
Theorem generateAIPrice_positive_finite (input : js_object) (w : World) :
  unit_interval (next_draw w) ->
  let p := fst (generateAIPrice input w) in
  (0 < p <= 50)%Z
  /\ as_value p = JNum (Finite (inject_Z p))
  /\ js_get (as_value p) "price_range" = JUndefined.
Proof.
  intros Hu p.
  pose proof (price_of_draw_bounds _ Hu) as B.
  unfold p. rewrite generateAIPrice_draw. repeat split; lia.
Qed.

Lemma generateAIPrice_positive_finite_witness :
  unit_interval (next_draw alternating)
  /\ (0 < fst (generateAIPrice hoodie alternating) <= 50)%Z.
Proof.
  assert (H : unit_interval (next_draw alternating)).
  { split; [apply Qle_refl | reflexivity]. }
  split; [exact H|].
  exact (proj1 (generateAIPrice_positive_finite hoodie alternating H)).
Defined.

(** C3 fails on the code: on the same draw both conditions are priced
    20. *)
Lemma condition_not_strictly_monotone : ~ strictly_monotone_in_condition.
Proof.
  intros H.
  specialize (H hoodie alternating alternating alternating_fair alternating_fair).
  vm_compute in H. discriminate H.
Qed.

(** C3, amended: the price does not depend on the condition.  For any two
    conditions, the price of the first is at most the price of the second
    whenever its draw is at most the other's; on equal draws the prices
    for "new" and "poor" are therefore equal. *)
Theorem generateAIPrice_ignores_condition
  (input : js_object) (c1 c2 : js_value) (w1 w2 : World) :
  next_draw w1 <= next_draw w2 ->
  (fst (generateAIPrice (with_condition c1 input) w1)
   <= fst (generateAIPrice (with_condition c2 input) w2))%Z.
Proof.
  intros H. rewrite !generateAIPrice_draw. now apply price_of_draw_mono.
Qed.

Lemma generateAIPrice_ignores_condition_witness :
  next_draw stuck_at_zero <= next_draw alternating
  /\ (fst (generateAIPrice (with_condition (JStr "new") hoodie) stuck_at_zero)
      <= fst (generateAIPrice (with_condition (JStr "poor") hoodie) alternating))%Z.
Proof.
  assert (H : next_draw stuck_at_zero <= next_draw alternating)
    by (apply Qle_refl).
  split; [exact H|].
  exact (generateAIPrice_ignores_condition hoodie (JStr "new") (JStr "poor")
           stuck_at_zero alternating H).
Defined.

End AiGeneratorFacts.

Import AiGeneratorFacts.

(* ================================================================== *)
(** * formValidator.js *)
(* ================================================================== *)

Module FormValidatorFacts.

Lemma js_string_eqb_eq (a b : js_string) : js_string_eqb a b = true <-> a = b.
Proof.
  unfold js_string_eqb. destruct (list_eq_dec N.eq_dec a b); split;
    congruence.
Qed.

Lemma js_string_eqb_neq (a b : js_string) : js_string_eqb a b = false <-> a <> b.
Proof.
  unfold js_string_eqb. destruct (list_eq_dec N.eq_dec a b); split;
    congruence.
Qed.

(** Case analysis on a test of the validator, with the fact it decides. *)
Ltac split_test :=
  match goal with
  | |- context [js_string_eqb ?a ?b] =>
      let E := fresh "E" in
      destruct (js_string_eqb a b) eqn:E;
      [apply js_string_eqb_eq in E | apply js_string_eqb_neq in E]
  | |- context [js_le ?a ?b] =>
      let E := fresh "E" in destruct (js_le a b) eqn:E
  | |- context [Nat.ltb ?a ?b] =>
      let E := fresh "E" in
      destruct (Nat.ltb_spec a b) as [E|E]
  end; simpl.

Ltac refute_invalid :=
  let H := fresh in
  intros H; unfold field_invalid in H; simpl in H;
  decompose [or and] H; clear H; try congruence; try lia.

(** C10: [validateField] returns false and calls [onError], once and with
    the field, exactly when the trimmed value is empty, or the field is a
    number field whose parsed value is at most 0, or the field is the
    title input with fewer than 10 characters, or the description input
    with fewer than 20; in every other case it returns true and makes no
    call. *)
Theorem validateField_exact (field : Element) (log : list ErrorCall) :
  (field_invalid field
   /\ exists message,
        validateField field record log
        = (false, (log ++ [(Some field, message)])%list))
  \/ (~ field_invalid field /\ validateField field record log = (true, log)).
Proof.
  unfold validateField, record.
  repeat split_test;
    try (left; split;
         [unfold field_invalid; simpl; tauto | eexists; reflexivity]);
    right; (split; [refute_invalid | reflexivity]).
Qed.

(** Any callback sees what the recording callback records. *)
Lemma validateField_replay {S : Type} (field : Element)
  (onError : @ErrorHandler S) (s : S) :
  validateField field onError s
  = (fst (validateField field record []),
     replay onError (snd (validateField field record [])) s).
Proof.
  unfold validateField.
  destruct (negb (String.eqb _ EmptyString)); reflexivity.
Qed.

Lemma validateField_extends_log (field : Element) (log : list ErrorCall) :
  exists calls, snd (validateField field record log) = (log ++ calls)%list.
Proof.
  rewrite validateField_replay. simpl.
  destruct (validateField field record []) as [ok calls] eqn:E.
  exists calls. simpl. revert E. unfold validateField.
  destruct (negb (String.eqb _ EmptyString)); intros [= <- <-]; simpl;
    [reflexivity | now rewrite app_nil_r].
Qed.

Section Loop.

Context {S : Type} (document : Document) (onError : @ErrorHandler S).

(** Once [isValid] is false, the loop over the required fields leaves
    it false. *)
Lemma check_required_keeps_false (ids : list js_string) (s : S) :
  fst (fold_left (check_required document onError) ids (false, s)) = false.
Proof.
  revert s. induction ids as [|i ids IH]; intros s; simpl; [reflexivity|].
  destruct (getElementById document i) as [field|]; [|apply IH].
  destruct (validateField field onError s) as [ok s'].
  destruct ok; simpl; apply IH.
Qed.

(** The loop can only lower [isValid]. *)
Lemma check_required_true (ids : list js_string) (b : bool) (s : S) :
  fst (fold_left (check_required document onError) ids (b, s)) = true ->
  b = true.
Proof.
  destruct b; [reflexivity|]. now rewrite check_required_keeps_false.
Qed.

End Loop.

Lemma check_required_extends_log (document : Document)
  (ids : list js_string) (b : bool) (log : list ErrorCall) :
  exists calls,
    snd (fold_left (check_required document record) ids (b, log))
    = (log ++ calls)%list.
Proof.
  revert b log. induction ids as [|i ids IH]; intros b log; simpl.
  - exists []. now rewrite app_nil_r.
  - destruct (getElementById document i) as [field|]; [|apply IH].
    destruct (validateField_extends_log field log) as [c1 E1].
    destruct (validateField field record log) as [ok log']. simpl in E1.
    subst log'.
    destruct (IH (if negb ok then false else b) (log ++ c1)%list) as [c2 E2].
    exists (c1 ++ c2)%list. rewrite app_assoc, <- E2.
    destruct ok; reflexivity.
Qed.

(** C9: with no uploaded image [validateForm] returns false, whatever the
    document, the required fields and the callback are, and its first
    call to [onError] reports 'Please upload at least one image' with a
    null field; so a form that validates has at least one image. *)
Theorem validateForm_requires_image
  (document : Document) (requiredFieldIds : list js_string) :
  (forall (S : Type) (onError : @ErrorHandler S) (s : S),
      fst (validateForm document requiredFieldIds [] onError s) = false)
  /\ (forall log : list ErrorCall,
        exists later,
          snd (validateForm document requiredFieldIds [] record log)
          = (log ++ (None, "Please upload at least one image"%string)
               :: later)%list)
  /\ (forall (S : Type) (onError : @ErrorHandler S) (s : S)
             (uploadedImages : list js_value),
        fst (validateForm document requiredFieldIds uploadedImages onError s)
        = true ->
        uploadedImages <> []).
Proof.
  split; [|split].
  - intros S onError s. unfold validateForm; simpl.
    apply check_required_keeps_false.
  - intros log. unfold validateForm; simpl.
    destruct (check_required_extends_log document requiredFieldIds false
                (record None "Please upload at least one image"%string log))
      as [later E].
    exists later. rewrite E. unfold record. now rewrite <- app_assoc.
  - intros S onError s imgs H ->. unfold validateForm in H; simpl in H.
    rewrite check_required_keeps_false in H. discriminate H.
Qed.

Lemma validateForm_requires_image_witness :
  fst (validateForm sample_document [lit "title-input"; lit "price-input"]
         [JStr "photo.jpg"] record []) = true
  /\ [JStr "photo.jpg"] <> [].
Proof.
  assert (H : fst (validateForm sample_document
                     [lit "title-input"; lit "price-input"]
                     [JStr "photo.jpg"] record []) = true).
  { vm_compute. reflexivity. }
  split; [exact H|].
  exact (proj2 (proj2 (validateForm_requires_image sample_document
                         [lit "title-input"; lit "price-input"]))
           _ record [] [JStr "photo.jpg"] H).
Defined.

End FormValidatorFacts.

Import FormValidatorFacts.

(* ================================================================== *)
(** * The pricing core *)
(* ================================================================== *)

Module PricingCoreFacts.

Import PricingCore.

Lemma Qlt_bool_iff (x y : Q) : Qlt_bool x y = true <-> x < y.
Proof.
  unfold Qlt_bool. rewrite negb_true_iff. split; intros H.
  - apply Qnot_le_lt. intros L. apply Qle_bool_iff in L. congruence.
  - destruct (Qle_bool y x) eqn:E; [|reflexivity].
    apply Qle_bool_iff in E. exfalso. apply (Qlt_irrefl x).
    eapply Qlt_le_trans; eauto.
Qed.

Lemma sum_nonneg (l : list Q) : Forall (fun x => 0 <= x) l -> 0 <= sum l.
Proof.
  induction 1 as [|x l Hx _ IH]; simpl; [apply Qle_refl|]. lra.
Qed.

Lemma sum_positive (l : list Q) :
  l <> [] -> Forall (fun x => 0 < x) l -> 0 < sum l.
Proof.
  intros Hne H. destruct H as [|x l Hx Hl]; [congruence|]. simpl.
  assert (0 <= sum l).
  { apply sum_nonneg. eapply Forall_impl; [|exact Hl].
    intros a Ha. now apply Qlt_le_weak. }
  lra.
Qed.

Lemma count_nonneg (l : list Q) : 0 <= count l.
Proof.
  unfold count. change 0 with (inject_Z 0). rewrite <- Zle_Qle. lia.
Qed.

Lemma count_positive (l : list Q) : l <> [] -> 0 < count l.
Proof.
  intros H. unfold count. change 0 with (inject_Z 0). rewrite <- Zlt_Qlt.
  destruct l; [congruence|]. simpl. lia.
Qed.

Lemma Qdiv_nonneg (x y : Q) : 0 <= x -> 0 <= y -> 0 <= x / y.
Proof.
  intros Hx Hy. unfold Qdiv. apply Qmult_le_0_compat; [exact Hx|].
  now apply Qinv_le_0_compat.
Qed.

Lemma variance_nonneg (l : list Q) : 0 <= variance l.
Proof.
  unfold variance. apply Qdiv_nonneg; [|apply count_nonneg].
  apply sum_nonneg. apply Forall_forall. intros y Hy.
  apply in_map_iff in Hy. destruct Hy as [x [<- _]].
  set (d := x - mean l). nra.
Qed.

Lemma mean_positive (l : list Q) :
  l <> [] -> Forall (fun x => 0 < x) l -> 0 < mean l.
Proof.
  intros Hne H. unfold mean. apply Qlt_shift_div_l.
  - now apply count_positive.
  - rewrite Qmult_0_l. now apply sum_positive.
Qed.

(** The rational test decides the comparison of the real coefficient of
    variation with the threshold. *)
Lemma cv_belowb_real (t : Q) (l : list Q) :
  0 < t -> 0 < mean l ->
  cv_belowb t l = true <-> (coefficient_of_variation l < Q2R t)%R.
Proof.
  intros Ht Hm. unfold cv_belowb, coefficient_of_variation, stdev.
  rewrite Qlt_bool_iff.
  pose proof (Qle_Rle _ _ (variance_nonneg l)) as Hv.
  apply Qlt_Rlt in Ht, Hm. rewrite RMicromega.Q2R_0 in Hv, Ht, Hm.
  set (v := Q2R (variance l)) in *. set (m := Q2R (mean l)) in *.
  assert (Htm : (0 < Q2R t * m)%R) by now apply Rmult_lt_0_compat.
  assert (Hdiv : (sqrt v / m < Q2R t <-> sqrt v < Q2R t * m)%R).
  { split; intros H.
    - apply (Rmult_lt_compat_r m) in H; [|exact Hm].
      unfold Rdiv in H. rewrite Rmult_assoc, Rinv_l, Rmult_1_r in H;
        [exact H | Lra.lra].
    - apply (Rmult_lt_reg_r m); [exact Hm|].
      unfold Rdiv. rewrite Rmult_assoc, Rinv_l, Rmult_1_r;
        [exact H | Lra.lra]. }
  rewrite Hdiv.
  rewrite <- (sqrt_square (Q2R t * m)) by Lra.lra.
  split; intros H.
  - apply sqrt_lt_1_alt. split; [exact Hv|].
    apply Qlt_Rlt in H. rewrite !Q2R_mult in H. exact H.
  - apply sqrt_lt_0_alt in H. apply Rlt_Qlt. now rewrite !Q2R_mult.
Qed.

Section WithPolicy.

Variable cfg : Policy.

Lemma parse_price_positive (l : ScrapedListing) (p : Q) :
  parse_price cfg l = Some p -> 0 < p.
Proof.
  unfold parse_price. destruct (price l) as [raw|]; [|discriminate].
  destruct (parse_number cfg raw) as [x|]; [|discriminate].
  destruct (Qlt_bool 0 x) eqn:E; [|discriminate].
  intros [= <-]. now apply Qlt_bool_iff.
Qed.

Lemma unpriced_no_price (l : ScrapedListing) :
  unpriced cfg l -> parse_price cfg l = None.
Proof.
  unfold unpriced, parse_price. destruct (price l) as [raw|]; [|reflexivity].
  destruct (parse_number cfg raw) as [x|]; [|reflexivity].
  intros H. destruct (Qlt_bool 0 x) eqn:E; [|reflexivity].
  apply Qlt_bool_iff in E. exfalso. apply (Qlt_irrefl 0).
  eapply Qlt_le_trans; eauto.
Qed.

Lemma to_comparable_price (q : QueryAttributes) (l : ScrapedListing)
  (c : Comparable) :
  to_comparable cfg q l = Some c ->
  parse_price cfg l = Some (comparable_price c).
Proof.
  unfold to_comparable. destruct (parse_price cfg l) as [p|]; [|discriminate].
  destruct (relevant q l); [|discriminate]. now intros [= <-].
Qed.

Lemma candidates_origin (q : QueryAttributes) (raw : list ScrapedListing)
  (c : Comparable) :
  In c (candidates cfg q raw) ->
  exists l, In l raw /\ to_comparable cfg q l = Some c.
Proof.
  induction raw as [|l raw IH]; simpl; [tauto|].
  destruct (to_comparable cfg q l) as [c'|] eqn:E.
  - intros [<-|H].
    + exists l. tauto.
    + destruct (IH H) as [l' [? ?]]. exists l'. tauto.
  - intros H. destruct (IH H) as [l' [? ?]]. exists l'. tauto.
Qed.

Lemma candidates_app (q : QueryAttributes) (a b : list ScrapedListing) :
  candidates cfg q (a ++ b) = (candidates cfg q a ++ candidates cfg q b)%list.
Proof.
  induction a as [|l a IH]; simpl; [reflexivity|].
  destruct (to_comparable cfg q l); simpl; now rewrite IH.
Qed.

Lemma reject_outliers_subset (s : ComparableSample) (c : Comparable) :
  In c (reject_outliers cfg s) -> In c s.
Proof.
  unfold reject_outliers. destruct (List.length s <? 4)%nat; [tauto|].
  intros H. now apply filter_In in H.
Qed.

Lemma within_fences_iff (prices : list Q) (p : Q) :
  within_fences cfg prices p = true
  <-> Q1 cfg prices - (15 # 10) * IQR cfg prices <= p
      /\ p <= Q3 cfg prices + (15 # 10) * IQR cfg prices.
Proof.
  unfold within_fences, lower_fence, upper_fence.
  rewrite andb_true_iff, !Qle_bool_iff. tauto.
Qed.

(** C7: [normalize] fails exactly on a query that lacks both brand and
    type, and then with [InvalidQuery]; for a query with a brand or a
    type it returns a sample whatever the listings hold.  Every element
    of that sample carries the positive price parsed from one of the
    listings, and a listing without a usable price (none, unparseable
    or not positive) changes nothing: the result is the one obtained
    without it. *)
Theorem normalize_fails_only_on_invalid_query
  (rawListings : list ScrapedListing) (query : QueryAttributes) :
  (forall e, normalize cfg rawListings query = inl e <->
             brand query = None /\ type query = None)
  /\ (brand query <> None \/ type query <> None ->
      exists sample,
        normalize cfg rawListings query = inr sample
        /\ forall c, In c sample ->
             0 < comparable_price c
             /\ exists l, In l rawListings
                          /\ parse_price cfg l = Some (comparable_price c))
  /\ (forall before l after,
        rawListings = (before ++ l :: after)%list ->
        unpriced cfg l ->
        normalize cfg rawListings query
        = normalize cfg (before ++ after)%list query).
Proof.
  split; [|split].
  - intros []. unfold normalize.
    destruct (brand query), (type query); split;
      solve [discriminate | intros [? ?]; discriminate | tauto].
  - intros H.
    exists (reject_outliers cfg (candidates cfg query rawListings)). split.
    + unfold normalize. destruct (brand query), (type query);
        solve [reflexivity | destruct H; congruence].
    + intros c Hc. apply reject_outliers_subset in Hc.
      destruct (candidates_origin _ _ _ Hc) as [l [Hl E]].
      apply to_comparable_price in E. split.
      * eapply parse_price_positive; eauto.
      * exists l. tauto.
  - intros before l after -> U. unfold normalize.
    rewrite !candidates_app. simpl. unfold to_comparable.
    now rewrite (unpriced_no_price l U).
Qed.

(** C5: the sample [normalize] returns is the list of candidates (the
    listings left by price parsing, relevance filtering and condition
    mapping) when there are fewer than 4 of them, and otherwise the
    candidates whose price lies in
    [Q1 - 1.5 IQR, Q3 + 1.5 IQR], quartiles taken over the candidate
    prices. *)
Theorem normalize_outlier_rejection
  (rawListings : list ScrapedListing) (query : QueryAttributes)
  (sample : ComparableSample) :
  normalize cfg rawListings query = inr sample ->
  let kept := candidates cfg query rawListings in
  let prices := map comparable_price kept in
  ((List.length kept < 4)%nat -> sample = kept)
  /\ ((4 <= List.length kept)%nat ->
      sample
      = filter (fun c => within_fences cfg prices (comparable_price c)) kept
      /\ forall c,
           In c sample <->
           In c kept
           /\ Q1 cfg prices - (15 # 10) * IQR cfg prices
              <= comparable_price c
           /\ comparable_price c
              <= Q3 cfg prices + (15 # 10) * IQR cfg prices).
Proof.
  intros H kept prices.
  assert (E : sample = reject_outliers cfg kept).
  { unfold normalize in H.
    destruct (brand query), (type query); try discriminate H;
      injection H as <-; reflexivity. }
  subst sample. unfold reject_outliers. fold prices. split; intros L.
  - apply Nat.ltb_lt in L. now rewrite L.
  - apply Nat.ltb_ge in L. rewrite L. split; [reflexivity|].
    intros c. rewrite filter_In, within_fences_iff. tauto.
Qed.

(** C4: on an empty sample [estimate] returns the fallback estimate:
    the recommended price is the default price supplied by the caller,
    the confidence is low and the price range is
    (default * 0.8, default * 1.2).  [estimate] is a total function, so
    no input raises an error. *)
Theorem estimate_empty_fallback (sample : ComparableSample) (c : Condition) :
  List.length sample = 0%nat ->
  let e := estimate cfg sample c in
  recommended_price e = default_price cfg
  /\ confidence e = Low
  /\ price_range e
     = (default_price cfg * (8 # 10), default_price cfg * (12 # 10))
  /\ sample_size e = 0%nat.
Proof.
  destruct sample; [|discriminate]. intros _. simpl. tauto.
Qed.

Lemma clamp_bounds (lo hi x : Q) :
  lo <= hi -> lo <= clamp lo hi x /\ clamp lo hi x <= hi.
Proof.
  intros H. unfold clamp.
  destruct (Qlt_bool x lo) eqn:E1; [split; [apply Qle_refl | exact H]|].
  destruct (Qlt_bool hi x) eqn:E2; [split; [exact H | apply Qle_refl]|].
  split; apply Qnot_lt_le; intros L; apply Qlt_bool_iff in L; congruence.
Qed.

Lemma estimate_confidence (sample : ComparableSample) (c : Condition) :
  confidence (estimate cfg sample c)
  = confidence_of (map comparable_price sample)
  /\ sample_size (estimate cfg sample c) = List.length sample.
Proof.
  destruct sample as [|x sample]; [split; reflexivity|].
  unfold estimate. destruct (Qeq_bool _ _); split; reflexivity.
Qed.

Lemma valid_sample_mean (sample : ComparableSample) :
  valid_sample sample -> sample <> [] ->
  0 < mean (map comparable_price sample).
Proof.
  intros V Hne. apply mean_positive.
  - destruct sample; [congruence | discriminate].
  - apply Forall_forall. intros x Hx. apply in_map_iff in Hx.
    destruct Hx as [c' [<- Hc]].
    exact (proj1 (Forall_forall _ _) V c' Hc).
Qed.

(** C6: the confidence of an estimate is high exactly when the sample
    has at least 8 elements and the coefficient of variation
    (stdev / mean) of its prices is below 0.3; medium exactly when the
    sample has at least 3 elements and the estimate is not high; low
    exactly in the remaining cases, which include the empty sample. *)
Theorem estimate_confidence_exact (sample : ComparableSample) (c : Condition) :
  valid_sample sample ->
  let e := estimate cfg sample c in
  let prices := map comparable_price sample in
  let high :=
    (8 <= sample_size e)%nat
    /\ (coefficient_of_variation prices < Q2R (3 # 10))%R in
  sample_size e = List.length sample
  /\ (confidence e = High <-> high)
  /\ (confidence e = Medium <-> (3 <= sample_size e)%nat /\ ~ high)
  /\ (confidence e = Low <-> ~ (3 <= sample_size e)%nat /\ ~ high)
  /\ (sample = [] -> confidence e = Low).
Proof.
  intros V e prices high. subst e high prices.
  destruct (estimate_confidence sample c) as [-> ->].
  split; [reflexivity|].
  assert (CV : (8 <= List.length sample)%nat ->
               cv_belowb (3 # 10) (map comparable_price sample) = true
               <-> (coefficient_of_variation (map comparable_price sample)
                    < Q2R (3 # 10))%R).
  { intros L. apply cv_belowb_real; [reflexivity|].
    apply valid_sample_mean; [exact V|].
    intros ->. simpl in L. lia. }
  unfold confidence_of. rewrite length_map.
  destruct (Nat.leb_spec 8 (List.length sample)) as [L8|L8];
  destruct (Nat.leb_spec 3 (List.length sample)) as [L3|L3];
  try (exfalso; lia); simpl.
  - specialize (CV L8).
    destruct (cv_belowb (3 # 10) (map comparable_price sample)).
    + assert (coefficient_of_variation (map comparable_price sample)
              < Q2R (3 # 10))%R by now apply CV.
      repeat split; try discriminate; try tauto.
      intros ->. simpl in L8. lia.
    + assert (~ (coefficient_of_variation (map comparable_price sample)
                 < Q2R (3 # 10))%R).
      { intros H. apply CV in H. discriminate H. }
      repeat split; try discriminate; try tauto.
      intros ->. simpl in L8. lia.
  - repeat split; try discriminate; try tauto; try lia.
    intros ->. simpl in L3. lia.
  - repeat split; try discriminate; try tauto; try lia.
Qed.

End WithPolicy.

Lemma normalize_fails_only_on_invalid_query_witness :
  (brand nike_query <> None \/ type nike_query <> None)
  /\ unpriced sample_policy unreadable
  /\ normalize sample_policy scenario nike_query
     = normalize sample_policy
         (firstn 3 scenario ++ skipn 4 scenario)%list nike_query
  /\ exists sample, normalize sample_policy scenario nike_query = inr sample.
Proof.
  assert (B : brand nike_query <> None \/ type nike_query <> None)
    by (left; discriminate).
  assert (U : unpriced sample_policy unreadable) by exact I.
  pose proof (normalize_fails_only_on_invalid_query sample_policy scenario
                nike_query) as [_ [Ok Drop]].
  split; [exact B|]. split; [exact U|]. split.
  - exact (Drop (firstn 3 scenario) unreadable (skipn 4 scenario)
             eq_refl U).
  - destruct (Ok B) as [sample [E _]]. now exists sample.
Defined.

Lemma normalize_outlier_rejection_witness :
  normalize sample_policy scenario nike_query
  = inr (firstn 3 (candidates sample_policy nike_query scenario))
  /\ (4 <= List.length (candidates sample_policy nike_query scenario))%nat
  /\ firstn 3 (candidates sample_policy nike_query scenario)
     = filter
         (fun c =>
            within_fences sample_policy
              (map comparable_price
                 (candidates sample_policy nike_query scenario))
              (comparable_price c))
         (candidates sample_policy nike_query scenario).
Proof.
  assert (E : normalize sample_policy scenario nike_query
              = inr (firstn 3 (candidates sample_policy nike_query scenario)))
    by (vm_compute; reflexivity).
  assert (L : (4 <= List.length
                      (candidates sample_policy nike_query scenario))%nat)
    by (vm_compute; lia).
  split; [exact E|]. split; [exact L|].
  exact (proj1 (proj2 (normalize_outlier_rejection sample_policy scenario
                         nike_query _ E) L)).
Defined.

(** The scenario of the specification under the sample policy: the
    unreadable price and the extreme price are gone, the median is 13 and
    so is the price recommended for condition "good". *)
Example scenario_sample :
  option_map (map comparable_price)
    (match normalize sample_policy scenario nike_query with
     | inr sample => Some sample
     | inl _ => None
     end)
  = Some [1250 # 100; 14; 13].
Proof. vm_compute. reflexivity. Qed.

Example scenario_estimate :
  recommended_price
    (estimate sample_policy
       (reject_outliers sample_policy
          (candidates sample_policy nike_query scenario)) Good) == 13.
Proof. vm_compute. reflexivity. Qed.

Example scenario_invalid_query :
  normalize sample_policy scenario empty_query = inl InvalidQuery.
Proof. reflexivity. Qed.

Lemma tight_sample_valid : valid_sample tight_sample.
Proof. repeat constructor. Qed.

Lemma estimate_confidence_exact_witness :
  valid_sample tight_sample
  /\ ((8 <= sample_size (estimate sample_policy tight_sample Good))%nat
      /\ (coefficient_of_variation (map comparable_price tight_sample)
          < Q2R (3 # 10))%R).
Proof.
  split; [exact tight_sample_valid|].
  apply (proj1 (proj1 (proj2 (estimate_confidence_exact sample_policy
                                tight_sample Good tight_sample_valid)))).
  vm_compute. reflexivity.
Defined.

Lemma estimate_empty_fallback_witness :
  List.length (@nil Comparable) = 0%nat
  /\ recommended_price (estimate sample_policy [] Good) = 15
  /\ confidence (estimate sample_policy [] Good) = Low.
Proof.
  pose proof (estimate_empty_fallback sample_policy [] Good eq_refl)
    as [R [C _]].
  split; [reflexivity|]. split; [exact R | exact C].
Defined.

End PricingCoreFacts.

(* ================================================================== *)
(** * Facts about [trim] and [parseFloat] *)
(* ================================================================== *)

Module JsStringFacts.

Lemma trimStart_head (a : code_unit) (s : js_string) :
  is_white_space a = false -> trimStart (a :: s) = a :: s.
Proof. intros H. simpl. now rewrite H. Qed.

(** [trim] leaves alone a text that neither starts nor ends with white
    space. *)
Lemma trim_framed (a z : code_unit) (m : js_string) :
  is_white_space a = false -> is_white_space z = false ->
  trim (a :: m ++ [z]) = (a :: m ++ [z])%list.
Proof.
  intros Ha Hz. unfold trim, trimEnd. rewrite (trimStart_head a _ Ha).
  assert (E : rev (a :: m ++ [z]) = (z :: rev (a :: m))%list).
  { change (a :: m ++ [z])%list with ((a :: m) ++ [z])%list.
    now rewrite rev_app_distr. }
  rewrite E, (trimStart_head z _ Hz), <- E. apply rev_involutive.
Qed.

Lemma lit_length (s : string) : List.length (lit s) = String.length s.
Proof.
  unfold lit. rewrite length_map.
  induction s as [|c s IH]; simpl; [reflexivity | now rewrite IH].
Qed.

Lemma lit_app (a b : string) : lit (a ++ b) = (lit a ++ lit b)%list.
Proof.
  unfold lit. rewrite <- map_app. f_equal.
  induction a as [|c a IH]; simpl; [reflexivity | now rewrite IH].
Qed.

Lemma trimStart_keeps_last (l : js_string) (a : code_unit) :
  is_white_space a = false -> exists q, trimStart (l ++ [a]) = (q ++ [a])%list.
Proof.
  intros Ha. induction l as [|c l IH]; simpl.
  - rewrite Ha. now exists [].
  - destruct (is_white_space c); [exact IH|]. now exists (c :: l)%list.
Qed.

(** [trim] keeps a first character that is not white space. *)
Lemma trim_head (a : code_unit) (s : js_string) :
  is_white_space a = false -> exists m, trim (a :: s) = (a :: m)%list.
Proof.
  intros Ha. unfold trim, trimEnd. rewrite (trimStart_head a s Ha).
  simpl rev. destruct (trimStart_keeps_last (rev s) a Ha) as [q ->].
  exists (rev q). now rewrite rev_app_distr.
Qed.

Lemma trimStart_length (s : js_string) :
  (List.length (trimStart s) <= List.length s)%nat.
Proof.
  induction s as [|c s IH]; simpl; [lia|].
  destruct (is_white_space c); simpl; lia.
Qed.

(** [trim] never lengthens a text. *)
Lemma trim_length (s : js_string) :
  (List.length (trim s) <= List.length s)%nat.
Proof.
  unfold trim, trimEnd. rewrite length_rev.
  pose proof (trimStart_length (rev (trimStart s))) as H1.
  rewrite length_rev in H1. pose proof (trimStart_length s). lia.
Qed.

(** A text that starts with a letter is not a number. *)
Lemma parseFloat_letter (a : code_unit) (s : js_string) :
  (65 <= a <= 122)%N -> a <> 73%N -> parseFloat (a :: s) = NaN.
Proof.
  intros R NI. destruct a as [|p]; [lia|].
  do 7 (try destruct p as [p|p|]; try lia); try reflexivity; congruence.
Qed.

Lemma letter_not_white_space (a : code_unit) :
  (33 <= a <= 122)%N -> is_white_space a = false.
Proof.
  intros R. destruct a as [|p]; [lia|].
  do 7 (try destruct p as [p|p|]; try lia); reflexivity.
Qed.

Lemma trimStart_blank (p s : js_string) :
  blank p -> trimStart (p ++ s) = trimStart s.
Proof.
  unfold blank. induction p as [|c p IH]; simpl; [reflexivity|].
  intros H. apply andb_true_iff in H. destruct H as [Hc Hp].
  rewrite Hc. now apply IH.
Qed.

Lemma trimStart_all_blank (p : js_string) : blank p -> trimStart p = [].
Proof.
  intros H. rewrite <- (app_nil_r p). now rewrite trimStart_blank.
Qed.

Lemma blank_rev (p : js_string) : blank p -> blank (rev p).
Proof.
  unfold blank. rewrite !forallb_forall. intros H x Hx.
  apply H. now apply in_rev.
Qed.

Lemma trimEnd_blank (s q : js_string) :
  blank q -> trimEnd (s ++ q) = trimEnd s.
Proof.
  intros H. unfold trimEnd. rewrite rev_app_distr.
  now rewrite trimStart_blank by now apply blank_rev.
Qed.

(** What [trimStart] keeps does not start with white space. *)
Lemma trimStart_head_kept (s : js_string) (c : code_unit) (t : js_string) :
  trimStart s = (c :: t)%list -> is_white_space c = false.
Proof.
  induction s as [|a s IH]; simpl; [discriminate|].
  destruct (is_white_space a) eqn:E; [exact IH|].
  now intros [= <- _].
Qed.

Lemma trimStart_app_kept (s q : js_string) :
  trimStart s <> [] -> trimStart (s ++ q) = (trimStart s ++ q)%list.
Proof.
  induction s as [|a s IH]; simpl; [congruence|].
  destruct (is_white_space a); [exact IH | reflexivity].
Qed.

(** White space around a value does not change what [trim] returns. *)
Lemma trim_padding (p v q : js_string) :
  blank p -> blank q -> trim (p ++ v ++ q) = trim v.
Proof.
  intros Hp Hq. unfold trim. rewrite (trimStart_blank p _ Hp).
  destruct (trimStart v) as [|c t] eqn:E.
  - assert (B : blank v).
    { clear -E. unfold blank. induction v as [|a v IH]; [reflexivity|].
      simpl in *. destruct (is_white_space a); [now apply IH | discriminate]. }
    rewrite trimStart_all_blank; [reflexivity|].
    unfold blank in *. rewrite forallb_app, B, Hq. reflexivity.
  - rewrite trimStart_app_kept by (rewrite E; discriminate).
    rewrite E. now apply trimEnd_blank.
Qed.

Lemma trim_blank (v : js_string) : blank v -> trim v = [].
Proof.
  intros H. unfold trim. now rewrite trimStart_all_blank.
Qed.

(** The two matches on a leading character, as tests. *)
Lemma unsigned_literal_eq (s : js_string) :
  unsigned_literal s
  = let '(int, ni, rest) := span_digits s 0 0 in
    let plain :=
      if (ni =? 0)%Z then None
      else Some (inject_Z int * 10 ^ exponent_part rest) in
    match rest with
    | c :: rest' =>
        if (c =? 46)%N then
          let '(frac, nf, rest'') := span_digits rest' 0 0 in
          if ((ni =? 0) && (nf =? 0))%Z then None
          else Some (inject_Z (int * 10 ^ nf + frac)
                     * 10 ^ (exponent_part rest'' - nf))
        else plain
    | [] => plain
    end.
Proof.
  unfold unsigned_literal.
  destruct (span_digits s 0 0) as [[int ni] rest].
  destruct rest as [|[|p] rest']; try reflexivity.
  do 6 (try destruct p as [p|p|]); reflexivity.
Qed.

Lemma parseFloat_eq (input : js_string) :
  parseFloat input
  = let s := trimStart input in
    let '(neg, body) :=
      match s with
      | c :: t =>
          if (c =? 43)%N then (false, t)
          else if (c =? 45)%N then (true, t)
          else (false, s)
      | [] => (false, s)
      end in
    if starts_with (lit "Infinity") body then
      if neg then NegInfinity else PosInfinity
    else
      match unsigned_literal body with
      | Some mv => to_number (if neg then - mv else mv)
      | None => NaN
      end.
Proof.
  unfold parseFloat. destruct (trimStart input) as [|[|p] t]; try reflexivity.
  do 6 (try destruct p as [p|p|]); reflexivity.
Qed.

Lemma digit_of_digit (c : code_unit) :
  is_digit c = true -> digit_of c = Some (Z.of_N c - 48)%Z.
Proof. unfold is_digit, digit_of. now intros ->. Qed.

Lemma digit_range (c : code_unit) : is_digit c = true -> (48 <= c <= 57)%N.
Proof.
  unfold is_digit. rewrite andb_true_iff, !N.leb_le. tauto.
Qed.

Lemma span_digits_nonneg (s : js_string) (acc n : Z) :
  (0 <= acc)%Z -> (0 <= n)%Z ->
  (0 <= fst (fst (span_digits s acc n)))%Z
  /\ (n <= snd (fst (span_digits s acc n)))%Z.
Proof.
  revert acc n. induction s as [|c s IH]; intros acc n Ha Hn;
    cbn [span_digits].
  - simpl. lia.
  - unfold digit_of. destruct ((48 <=? c) && (c <=? 57))%N eqn:E.
    + apply andb_true_iff in E. rewrite !N.leb_le in E.
      destruct (IH (10 * acc + (Z.of_N c - 48))%Z (n + 1)%Z) as [H1 H2];
        lia.
    + simpl. lia.
Qed.

Lemma pow10_pos (e : Z) : 0 < 10 ^ e.
Proof. apply Qpower_0_lt. reflexivity. Qed.

(** After a digit, an unsigned literal has a value, and that value is
    not negative. *)
Lemma unsigned_literal_digit (d : code_unit) (m : js_string) :
  is_digit d = true ->
  exists mv, unsigned_literal (d :: m) = Some mv /\ 0 <= mv.
Proof.
  intros Hd. rewrite unsigned_literal_eq.
  pose proof (span_digits_nonneg (d :: m) 0 0 ltac:(lia) ltac:(lia)) as [Hi _].
  assert (Hn : (1 <= snd (fst (span_digits (d :: m) 0 0)))%Z).
  { simpl. rewrite (digit_of_digit d Hd).
    apply (span_digits_nonneg m _ (0 + 1)%Z); [|lia].
    apply digit_range in Hd. lia. }
  destruct (span_digits (d :: m) 0 0) as [[int ni] rest]. simpl in Hi, Hn.
  assert (N0 : (ni =? 0)%Z = false) by (apply Z.eqb_neq; lia).
  assert (P : forall e, 0 <= inject_Z int * 10 ^ e).
  { intros e. apply Qmult_le_0_compat.
    - change 0 with (inject_Z 0). now rewrite <- Zle_Qle.
    - apply Qlt_le_weak, pow10_pos. }
  cbv zeta. rewrite N0.
  destruct rest as [|c rest']; [eexists; split; [reflexivity | apply P]|].
  destruct (c =? 46)%N; [|eexists; split; [reflexivity | apply P]].
  pose proof (span_digits_nonneg rest' 0 0 ltac:(lia) ltac:(lia)) as [Hf Hk].
  destruct (span_digits rest' 0 0) as [[frac nf] rest'']. simpl in Hf, Hk.
  simpl. eexists; split; [reflexivity|].
  apply Qmult_le_0_compat.
  - change 0 with (inject_Z 0). rewrite <- Zle_Qle.
    assert (0 <= 10 ^ nf)%Z by (apply Z.pow_nonneg; lia). nia.
  - apply Qlt_le_weak, pow10_pos.
Qed.

Lemma to_number_nonpositive (x : Q) :
  x <= 0 -> js_le (to_number x) (Finite 0) = true.
Proof.
  intros H. unfold to_number.
  assert (R : b64 x <= 0) by (change 0 with (b64 0); now apply b64_mono).
  destruct (Qle_bool (2 ^ 1024) (b64 x)) eqn:E.
  - apply Qle_bool_iff in E. exfalso.
    assert (0 < 2 ^ 1024) by apply pow2_pos. lra.
  - destruct (Qle_bool (b64 x) (- 2 ^ 1024)); [reflexivity|].
    simpl. now apply Qle_bool_iff.
Qed.

Lemma to_number_positive (x : Q) :
  1 <= x -> js_le (to_number x) (Finite 0) = false.
Proof.
  intros H. unfold to_number.
  assert (R : 1 <= b64 x).
  { assert (E : b64 1 == 1) by (vm_compute; reflexivity).
    rewrite <- E. now apply b64_mono. }
  destruct (Qle_bool (2 ^ 1024) (b64 x)); [reflexivity|].
  destruct (Qle_bool (b64 x) (- 2 ^ 1024)) eqn:E.
  - apply Qle_bool_iff in E. exfalso.
    assert (0 < 2 ^ 1024) by apply pow2_pos. lra.
  - simpl. destruct (Qle_bool (b64 x) 0) eqn:E0; [|reflexivity].
    apply Qle_bool_iff in E0. exfalso. lra.
Qed.

(** A minus sign followed by a digit parses to a Number at most 0. *)
Lemma parseFloat_minus_digit (d : code_unit) (m : js_string) :
  is_digit d = true ->
  js_le (parseFloat (45%N :: d :: m)) (Finite 0) = true.
Proof.
  intros Hd. rewrite parseFloat_eq.
  change (trimStart (45%N :: d :: m)) with (45%N :: d :: m)%list.
  cbv beta iota zeta delta [N.eqb Pos.eqb].
  assert (S0 : starts_with (lit "Infinity") (d :: m) = false).
  { change (lit "Infinity") with (73%N :: lit "nfinity")%list.
    cbn [starts_with]. apply digit_range in Hd.
    destruct (N.eqb_spec 73 d); [lia | reflexivity]. }
  rewrite S0.
  destruct (unsigned_literal_digit d m Hd) as [mv [-> Hmv]].
  apply to_number_nonpositive. lra.
Qed.

Lemma span_digits_all (ds : js_string) (acc n : Z) :
  forallb is_digit ds = true ->
  span_digits ds acc n
  = (fold_left (fun a c => (10 * a + (Z.of_N c - 48))%Z) ds acc,
     (n + Z.of_nat (List.length ds))%Z, []).
Proof.
  revert acc n. induction ds as [|c ds IH]; intros acc n H.
  - simpl. now rewrite Z.add_0_r.
  - cbn [forallb] in H. apply andb_true_iff in H. destruct H as [Hc Hds].
    cbn [span_digits]. rewrite (digit_of_digit c Hc), (IH _ _ Hds).
    cbn [fold_left List.length]. f_equal. f_equal. lia.
Qed.

Lemma decimal_value_nonneg (ds : js_string) :
  forallb is_digit ds = true -> (0 <= decimal_value ds)%Z.
Proof.
  intros H. pose proof (span_digits_nonneg ds 0 0 ltac:(lia) ltac:(lia)) as [P _].
  rewrite (span_digits_all ds 0 0 H) in P. exact P.
Qed.

(** The Number a run of decimal digits parses to is positive exactly
    when the integer it denotes is. *)
Lemma parseFloat_digits (ds : js_string) :
  ds <> [] -> forallb is_digit ds = true ->
  js_le (parseFloat ds) (Finite 0) = negb (0 <? decimal_value ds)%Z.
Proof.
  intros Hne H. pose proof (decimal_value_nonneg ds H) as Hv.
  destruct ds as [|d ds']; [congruence|]. clear Hne.
  assert (Hd : is_digit d = true).
  { cbn [forallb] in H. now apply andb_true_iff in H. }
  pose proof (digit_range d Hd) as Rd.
  rewrite parseFloat_eq.
  rewrite (trimStart_head d ds') by (apply letter_not_white_space; lia).
  assert (E43 : (d =? 43)%N = false) by (apply N.eqb_neq; lia).
  assert (E45 : (d =? 45)%N = false) by (apply N.eqb_neq; lia).
  cbv beta iota zeta. rewrite E43, E45. cbv beta iota zeta.
  assert (S0 : starts_with (lit "Infinity") (d :: ds') = false).
  { change (lit "Infinity") with (73%N :: lit "nfinity")%list.
    cbn [starts_with]. destruct (N.eqb_spec 73 d); [lia | reflexivity]. }
  rewrite S0, unsigned_literal_eq, (span_digits_all (d :: ds') 0 0 H).
  cbv zeta iota.
  assert (N0 : (0 + Z.of_nat (List.length (d :: ds')) =? 0)%Z = false)
    by (apply Z.eqb_neq; simpl; lia).
  rewrite N0. fold (decimal_value (d :: ds')).
  set (v := decimal_value (d :: ds')) in *.
  destruct (Z.ltb_spec 0 v) as [P|P]; simpl negb.
  - apply to_number_positive.
    change (exponent_part []) with 0%Z. change (10 ^ 0) with 1.
    rewrite Qmult_1_r. change 1 with (inject_Z 1). rewrite <- Zle_Qle. lia.
  - apply to_number_nonpositive.
    change (exponent_part []) with 0%Z. change (10 ^ 0) with 1.
    rewrite Qmult_1_r. change 0 with (inject_Z 0). rewrite <- Zle_Qle. lia.
Qed.

End JsStringFacts.

Import JsStringFacts.

(* ================================================================== *)
(** * aiGenerator.js: facts about the title and the description *)
(* ================================================================== *)

Module AiTextFacts.

Import AiText.

(** A field whose trimmed value is not empty, does not parse to a
    Number at most 0 and has 20 code units or more is accepted, whatever
    its id and type. *)
Lemma validateField_accepts {S : Type} (field : Element)
  (onError : @ErrorHandler S) (s : S) :
  trim (value field) <> [] ->
  js_le (parseFloat (trim (value field))) (Finite 0) = false ->
  (20 <= List.length (trim (value field)))%nat ->
  validateField field onError s = (true, s).
Proof.
  intros Hne Hnum Hlen. unfold validateField.
  apply js_string_eqb_neq in Hne. rewrite Hne, Hnum, andb_false_r.
  assert (L10 : (List.length (trim (value field)) <? 10)%nat = false)
    by (apply Nat.ltb_ge; lia).
  assert (L20 : (List.length (trim (value field)) <? 20)%nat = false)
    by (apply Nat.ltb_ge; lia).
  rewrite L10, L20, !andb_false_r. reflexivity.
Qed.

(** The same, for a text framed by a letter and a character that is not
    white space. *)
Lemma validateField_accepts_framed {S : Type} (i t : js_string)
  (a z : code_unit) (m : js_string) (onError : @ErrorHandler S) (s : S) :
  (65 <= a <= 122)%N -> a <> 73%N -> (33 <= z <= 122)%N ->
  (18 <= List.length m)%nat ->
  validateField (mkElement i t (a :: m ++ [z])) onError s = (true, s).
Proof.
  intros Ra NI Rz Hm.
  assert (T : trim (a :: m ++ [z]) = (a :: m ++ [z])%list).
  { apply trim_framed; apply letter_not_white_space; lia. }
  apply validateField_accepts; simpl value; rewrite T.
  - discriminate.
  - now rewrite parseFloat_letter.
  - simpl. rewrite length_app. simpl. lia.
Qed.

Section WithNumberToString.

Variable Number_toString : js_number -> js_string.

Lemma floor_index (u : Q) :
  random_double u ->
  (0 <= Math_floor (fmul u (inject_Z (Z.of_nat (List.length adjectives))))
   <= 4)%Z.
Proof.
  intros [H0 H1]. unfold Math_floor, fmul. split.
  - change 0%Z with (Qfloor (b64 0)). apply Qfloor_resp_le, b64_mono.
    change (inject_Z (Z.of_nat (List.length adjectives))) with 5. lra.
  - change 4%Z with (Qfloor (b64 ((1 - (1 # 2 ^ 53)) * 5))).
    apply Qfloor_resp_le, b64_mono.
    change (inject_Z (Z.of_nat (List.length adjectives))) with 5. lra.
Qed.

Lemma element_text_in_range (i : Z) :
  (0 <= i <= 4)%Z -> In (element_text adjectives i) adjectives.
Proof.
  intros R. unfold element_text.
  destruct (Z.ltb_spec i 0) as [L|_]; [lia|].
  assert (C : (Z.to_nat i < 5)%nat) by lia.
  destruct (Z.to_nat i) as [|[|[|[|[|n]]]]]; simpl; try tauto. lia.
Qed.

(** X1: when [Math.random] returns a binary64 value in [0, 1), the index
    [Math.floor(Math.random() * adjectives.length)] is within the array:
    a title that [generateAITitle] returns starts with one of the five
    adjectives followed by a space, never with "undefined". *)
Theorem generateAITitle_starts_with_adjective
  (input : js_object) (w : World) (title : js_string) :
  random_double (next_draw w) ->
  fst (generateAITitle Number_toString input w) = Returns title ->
  exists adj rest,
    In adj adjectives /\ title = (adj ++ lit " " ++ rest)%list.
Proof.
  intros Hu. unfold generateAITitle, bind, Math_random, ret. simpl fst.
  unfold title_of_draw.
  set (adj := element_text adjectives _).
  assert (Hadj : In adj adjectives)
    by (apply element_text_in_range, floor_index, Hu).
  clearbody adj.
  destruct (if ToBoolean (lookup_prop "brand" input) then _ else _)
    as [b|]; [|discriminate].
  cbn [and_then].
  destruct (ToString Number_toString (lookup_prop "category" input))
    as [c|]; [|discriminate].
  cbn [and_then].
  destruct (ToBoolean (lookup_prop "size" input)).
  - destruct (ToString Number_toString (lookup_prop "size" input))
      as [sz|]; [|discriminate].
    cbn [and_then]. intros [= <-]. exists adj.
    destruct (is_new _); eexists; (split; [exact Hadj|]);
      rewrite <- ?app_assoc; reflexivity.
  - cbn [and_then]. intros [= <-]. exists adj.
    destruct (is_new _); eexists; (split; [exact Hadj|]);
      rewrite <- ?app_assoc; reflexivity.
Qed.

Lemma Returns_inj {A : Type} (x y : A) : Returns x = Returns y -> x = y.
Proof. congruence. Qed.

Lemma ToString_outcome (v : js_value) :
  (convertible v /\ exists t, ToString Number_toString v = Returns t)
  \/ (~ convertible v /\ ToString Number_toString v = TypeError
      /\ ToBoolean v = true).
Proof.
  destruct v as [| |[]|x|s|o]; simpl;
    try (left; split; [exact I | eexists; reflexivity]).
  destruct (has_own "toString" o).
  - right. repeat split. discriminate.
  - left. split; [reflexivity | eexists; reflexivity].
Qed.


(** X3: the condition enters the title only through the test
    [condition === 'new']: on the same draw, the title for condition
    'new' is the title for any other condition followed by
    ' - New with Tags'. *)
Theorem generateAITitle_new_suffix
  (input : js_object) (other : js_value) (w : World) (title : js_string) :
  is_new other = false ->
  fst (generateAITitle Number_toString (with_condition other input) w)
  = Returns title ->
  fst (generateAITitle Number_toString
         (with_condition (JStr "new") input) w)
  = Returns (title ++ lit " - New with Tags")%list.
Proof.
  intros Hother. unfold generateAITitle, bind, Math_random, ret. simpl fst.
  unfold title_of_draw, with_condition.
  rewrite !lookup_prop_set.
  change (lookup_prop "category" (js_set "condition" ?c input))
    with (lookup_prop "category" input).
  change (lookup_prop "brand" (js_set "condition" ?c input))
    with (lookup_prop "brand" input).
  change (lookup_prop "size" (js_set "condition" ?c input))
    with (lookup_prop "size" input).
  rewrite Hother. change (is_new (JStr "new")) with true. cbv iota.
  destruct (if ToBoolean (lookup_prop "brand" input) then _ else _)
    as [b|]; [|discriminate].
  cbn [and_then].
  destruct (ToString Number_toString (lookup_prop "category" input))
    as [c|]; [|discriminate].
  cbn [and_then].
  destruct (if ToBoolean (lookup_prop "size" input) then _ else _)
    as [t|]; [|discriminate].
  cbn [and_then]. now intros [= <-].
Qed.


Lemma element_text_letter (i : Z) :
  exists a tail,
    element_text adjectives i = (a :: tail)%list
    /\ (65 <= a <= 122)%N /\ a <> 73%N /\ (3 <= List.length tail)%nat.
Proof.
  unfold element_text. destruct (i <? 0)%Z.
  - exists 117%N. eexists. split; [reflexivity|]. split; [lia|]. split; [discriminate | simpl; lia].
  - destruct (Z.to_nat i) as [|[|[|[|[|n]]]]]; cbn [nth adjectives].
    + exists 83%N. eexists. split; [reflexivity|]. split; [lia|]. split; [discriminate | simpl; lia].
    + exists 69%N. eexists. split; [reflexivity|]. split; [lia|]. split; [discriminate | simpl; lia].
    + exists 83%N. eexists. split; [reflexivity|]. split; [lia|]. split; [discriminate | simpl; lia].
    + exists 67%N. eexists. split; [reflexivity|]. split; [lia|]. split; [discriminate | simpl; lia].
    + exists 80%N. eexists. split; [reflexivity|]. split; [lia|]. split; [discriminate | simpl; lia].
    + exists 117%N. eexists. destruct n; (split; [reflexivity|]);
        (split; [lia|]); (split; [discriminate | simpl; lia]).
Qed.

(** X5: a title that [generateAITitle] returns for condition 'new' passes
    [validateField], whatever the id and the type of the field that holds
    it are: it starts with a letter, ends with 'Tags' and has more than 20
    code units. *)
Theorem generateAITitle_new_validates
  (input : js_object) (w : World) (title : js_string) :
  is_new (lookup_prop "condition" input) = true ->
  fst (generateAITitle Number_toString input w) = Returns title ->
  forall (St : Type) (onError : @ErrorHandler St) (s : St) (i t : js_string),
    validateField (mkElement i t title) onError s = (true, s).
Proof.
  intros Hnew. unfold generateAITitle, bind, Math_random, ret. simpl fst.
  unfold title_of_draw. rewrite Hnew.
  destruct (element_text_letter
              (Math_floor (fmul (next_draw w)
                             (inject_Z (Z.of_nat (List.length adjectives))))))
    as (a & tail & -> & Ra & NI & Lt).
  destruct (if ToBoolean (lookup_prop "brand" input) then _ else _)
    as [b|]; [|discriminate].
  cbn [and_then].
  destruct (ToString Number_toString (lookup_prop "category" input))
    as [c|]; [|discriminate].
  cbn [and_then].
  destruct (if ToBoolean (lookup_prop "size" input) then _ else _)
    as [sized|] eqn:Es; [|discriminate].
  cbn [and_then]. intros H St onError s i t.
  apply Returns_inj in H. subst title.
  assert (exists m, sized = (a :: m)%list /\ (3 <= List.length m)%nat)
    as (m & -> & Lm).
  { destruct (ToBoolean (lookup_prop "size" input)).
    - destruct (ToString Number_toString (lookup_prop "size" input));
        [|discriminate]. cbn [and_then] in Es. apply Returns_inj in Es.
      subst sized. eexists. split; [reflexivity|].
      rewrite !length_app. lia.
    - apply Returns_inj in Es. subst sized. eexists.
      split; [reflexivity|]. rewrite !length_app. lia. }
  change (lit " - New with Tags")
    with (lit " - New with Tag" ++ [115%N])%list.
  replace ((a :: m) ++ lit " - New with Tag" ++ [115%N])%list
    with (a :: (m ++ lit " - New with Tag") ++ [115%N])%list
    by (rewrite <- app_assoc; reflexivity).
  apply validateField_accepts_framed; try lia.
  rewrite length_app. simpl. lia.
Qed.

(** X6: without a brand, without a size and for a condition other than
    'new', the title is the adjective, a space and the category; when the
    draw selects 'Chic' and the category is a string of fewer than 5
    characters, the title input rejects the generated title as too
    short. *)
Theorem generateAITitle_short_title_rejected
  (input : js_object) (w : World) (c : string) (t : js_string)
  (log : list ErrorCall) :
  Math_floor (fmul (next_draw w)
                (inject_Z (Z.of_nat (List.length adjectives)))) = 3%Z ->
  lookup_prop "category" input = JStr c ->
  ToBoolean (lookup_prop "brand" input) = false ->
  ToBoolean (lookup_prop "size" input) = false ->
  is_new (lookup_prop "condition" input) = false ->
  (String.length c < 5)%nat ->
  let title := (lit "Chic " ++ lit c)%list in
  fst (generateAITitle Number_toString input w) = Returns title
  /\ validateField (mkElement (lit "title-input") t title) record log
     = (false,
        (log ++ [(Some (mkElement (lit "title-input") t title),
                  "Title must be at least 10 characters"%string)])%list).
Proof.
  intros Hi Hc Hb Hs Hn Hlen title. split.
  - unfold generateAITitle, bind, Math_random, ret. simpl fst.
    unfold title_of_draw. rewrite Hi, Hc, Hb, Hs, Hn. reflexivity.
  - unfold validateField, record. cbn [value id type].
    assert (L : (List.length (trim title) <= List.length title)%nat)
      by apply trim_length.
    assert (Lt : (List.length title < 10)%nat).
    { unfold title. rewrite length_app, (lit_length c). simpl. lia. }
    destruct (trim_head 67%N (lit "hic " ++ lit c) eq_refl) as [m Hm].
    change (67%N :: lit "hic " ++ lit c)%list with title in Hm.
    clearbody title. rewrite Hm in *. rewrite (parseFloat_letter 67%N m ltac:(lia) ltac:(discriminate)).
    match goal with
    | |- context [js_string_eqb (67%N :: m) ?n] =>
        replace (js_string_eqb (67%N :: m) n) with false
          by (symmetry; apply js_string_eqb_neq; discriminate)
    end.
    cbn [js_le]. rewrite andb_false_r.
    assert (E : js_string_eqb (lit "title-input") (lit "title-input") = true)
      by reflexivity.
    rewrite E.
    match goal with
    | |- context [Nat.ltb ?n 10] =>
        replace (Nat.ltb n 10) with true
          by (symmetry; apply Nat.ltb_lt;
              exact (Nat.le_lt_trans _ _ _ L Lt))
    end.
    reflexivity.
Qed.

End WithNumberToString.

Lemma alternating_random_double : random_double (next_draw alternating).
Proof. split; [apply Qle_refl | discriminate]. Qed.

Lemma generateAITitle_starts_with_adjective_witness :
  random_double (next_draw alternating)
  /\ fst (generateAITitle show_number felpa alternating)
     = Returns (lit "Stunning Nike Felpa - Size M - New with Tags")
  /\ exists adj rest,
       In adj adjectives
       /\ lit "Stunning Nike Felpa - Size M - New with Tags"
          = (adj ++ lit " " ++ rest)%list.
Proof.
  assert (E : fst (generateAITitle show_number felpa alternating)
              = Returns (lit "Stunning Nike Felpa - Size M - New with Tags"))
    by (vm_compute; reflexivity).
  split; [exact alternating_random_double|]. split; [exact E|].
  exact (generateAITitle_starts_with_adjective show_number felpa alternating
           _ alternating_random_double E).
Defined.

Lemma generateAITitle_new_suffix_witness :
  is_new (JStr "good") = false
  /\ fst (generateAITitle show_number
            (with_condition (JStr "new") hoodie) alternating)
     = Returns (lit "Stunning Felpa" ++ lit " - New with Tags")%list.
Proof.
  assert (N : is_new (JStr "good") = false) by reflexivity.
  assert (E : fst (generateAITitle show_number
                     (with_condition (JStr "good") hoodie) alternating)
              = Returns (lit "Stunning Felpa"))
    by (vm_compute; reflexivity).
  split; [exact N|].
  exact (generateAITitle_new_suffix show_number hoodie (JStr "good")
           alternating _ N E).
Defined.


Lemma generateAITitle_new_validates_witness :
  is_new (lookup_prop "condition" felpa) = true
  /\ validateField
       (mkElement (lit "title-input") (lit "text")
          (lit "Stunning Nike Felpa - Size M - New with Tags"))
       record []
     = (true, []).
Proof.
  assert (N : is_new (lookup_prop "condition" felpa) = true) by reflexivity.
  assert (E : fst (generateAITitle show_number felpa alternating)
              = Returns (lit "Stunning Nike Felpa - Size M - New with Tags"))
    by (vm_compute; reflexivity).
  split; [exact N|].
  exact (generateAITitle_new_validates show_number felpa alternating _ N E
           _ record [] (lit "title-input") (lit "text")).
Defined.

Lemma generateAITitle_short_title_rejected_witness :
  fst (generateAITitle show_number top_item stuck_at_seven_tenths)
  = Returns (lit "Chic " ++ lit "Top")%list
  /\ fst (validateField
            (mkElement (lit "title-input") (lit "text")
               (lit "Chic " ++ lit "Top")) record [])
     = false.
Proof.
  pose proof (generateAITitle_short_title_rejected show_number top_item
                stuck_at_seven_tenths "Top" (lit "text") []
                eq_refl eq_refl eq_refl eq_refl eq_refl
                ltac:(simpl; lia)) as [E V].
  split; [exact E|]. rewrite V. reflexivity.
Defined.

End AiTextFacts.

(* ================================================================== *)
(** * formValidator.js: the verdict and the calls of a validation *)
(* ================================================================== *)

Module FormValidatorMore.

Import FormValidatorTrace.

(** The verdict of [validateField] does not depend on the callback. *)
Lemma validateField_verdict {S : Type} (field : Element)
  (onError : @ErrorHandler S) (s : S) :
  fst (validateField field onError s) = true <-> ~ field_invalid field.
Proof.
  unfold validateField.
  repeat split_test; simpl fst;
    first [ split;
            [ discriminate
            | let H := fresh in
              intros H; exfalso; apply H; unfold field_invalid; simpl; tauto ]
          | split; [intros _; refute_invalid | reflexivity] ].
Qed.

Lemma replay_record (calls log : list ErrorCall) :
  replay record calls log = (log ++ calls)%list.
Proof.
  revert log. induction calls as [|c calls IH]; intros log.
  - simpl. now rewrite app_nil_r.
  - change (replay record (c :: calls) log)
      with (replay record calls (record (fst c) (snd c) log)).
    rewrite IH. unfold record. destruct c. simpl.
    now rewrite <- app_assoc.
Qed.

Lemma replay_app {S : Type} (onError : @ErrorHandler S)
  (a b : list ErrorCall) (s : S) :
  replay onError (a ++ b) s = replay onError b (replay onError a s).
Proof. unfold replay. apply fold_left_app. Qed.

Section Loop.

Context {S : Type} (document : Document) (onError : @ErrorHandler S).

Lemma check_required_verdict (ids : list js_string) (b : bool) (s : S) :
  fst (fold_left (check_required document onError) ids (b, s)) = true
  <-> b = true
      /\ forall i field,
           In i ids -> getElementById document i = Some field ->
           ~ field_invalid field.
Proof.
  revert b s. induction ids as [|i ids IH]; intros b s; simpl.
  - split; [intros ->; split; [reflexivity | tauto] | tauto].
  - destruct (getElementById document i) as [field|] eqn:G.
    + pose proof (validateField_verdict field onError s) as V.
      destruct (validateField field onError s) as [ok s']. simpl in V.
      destruct ok; simpl; rewrite IH.
      * split.
        -- intros [-> H]. split; [reflexivity|].
           intros j f [<-|Hj] Gj; [|now apply (H j)].
           rewrite G in Gj. injection Gj as <-. now apply V.
        -- intros [-> H]. split; [reflexivity|].
           intros j f Hj. apply H. now right.
      * split; [intros [? _]; discriminate|].
        intros [_ H]. exfalso.
        assert (~ field_invalid field) by (apply (H i); [now left | exact G]).
        apply V in H0. discriminate.
    + rewrite IH. split; intros [-> H]; (split; [reflexivity|]).
      * intros j f [<-|Hj] Gj; [congruence | now apply (H j)].
      * intros j f Hj. apply H. now right.
Qed.

Lemma check_required_trace (ids : list js_string) (b : bool) (s : S) :
  snd (fold_left (check_required document onError) ids (b, s))
  = replay onError (flat_map (field_errors document) ids) s.
Proof.
  revert b s. induction ids as [|i ids IH]; intros b s; simpl;
    [reflexivity|].
  rewrite replay_app. unfold field_errors at 2.
  destruct (getElementById document i) as [field|]; [|apply IH].
  rewrite (validateField_replay field onError s).
  destruct (fst (validateField field record [])); simpl; apply IH.
Qed.

End Loop.

(** X7: [validateForm] returns true exactly when at least one image was
    uploaded and no required id names a field that [validateField]
    rejects; a required id that no element of the document carries is
    skipped and never fails the form. *)
Theorem validateForm_true_iff {S : Type} (document : Document)
  (requiredFieldIds : list js_string) (uploadedImages : list js_value)
  (onError : @ErrorHandler S) (s : S) :
  fst (validateForm document requiredFieldIds uploadedImages onError s) = true
  <-> uploadedImages <> []
      /\ forall i field,
           In i requiredFieldIds ->
           getElementById document i = Some field ->
           ~ field_invalid field.
Proof.
  unfold validateForm. destruct uploadedImages as [|img imgs]; simpl;
    rewrite check_required_verdict; split.
  - intros [? _]; discriminate.
  - intros [? _]; congruence.
  - intros [_ H]. split; [discriminate | exact H].
  - intros [_ H]. split; [reflexivity | exact H].
Qed.

(** X8: [validateForm] does not stop at the first error.  The calls it
    makes to [onError] are the image error, when there is no image,
    followed by the calls of [validateField] for every required id in
    the order of [requiredFieldIds], an id listed twice being reported
    twice; the caller's state is the replay of these calls. *)
Theorem validateForm_reports_every_error {S : Type} (document : Document)
  (requiredFieldIds : list js_string) (uploadedImages : list js_value)
  (onError : @ErrorHandler S) (s : S) :
  snd (validateForm document requiredFieldIds uploadedImages onError s)
  = replay onError
      ((match uploadedImages with [] => [image_error] | _ => [] end)
         ++ flat_map (field_errors document) requiredFieldIds)%list s.
Proof.
  unfold validateForm. rewrite replay_app.
  destruct uploadedImages as [|img imgs]; simpl; apply check_required_trace.
Qed.

(** X9: a field whose value is empty or made of white space only is
    rejected as missing, whatever its id and type: [validateField]
    returns false after one call
    [onError(field, 'This field is required')]. *)
Theorem validateField_blank_is_required (field : Element)
  (log : list ErrorCall) :
  blank (value field) ->
  validateField field record log
  = (false, (log ++ [(Some field, "This field is required"%string)])%list).
Proof.
  intros B. unfold validateField. rewrite (trim_blank _ B). reflexivity.
Qed.

(** X10: white space before and after the value never changes the
    outcome: the verdict and the message are those of the value without
    it. *)
Theorem validateField_ignores_padding (i t p v q : js_string) :
  blank p -> blank q ->
  let padded := mkElement i t (p ++ v ++ q) in
  let bare := mkElement i t v in
  fst (validateField padded record []) = fst (validateField bare record [])
  /\ map snd (snd (validateField padded record []))
     = map snd (snd (validateField bare record [])).
Proof.
  intros Hp Hq padded bare. unfold validateField, padded, bare.
  cbn [value id type]. rewrite (trim_padding p v q Hp Hq).
  destruct (negb (String.eqb _ EmptyString)); split; reflexivity.
Qed.

(** ** Number fields *)

(** X11: a number field whose value, once trimmed, is a minus sign
    followed by a digit is rejected with 'Please enter a valid number',
    whatever its id is and whatever follows the digit. *)
Theorem validateField_rejects_negative (field : Element)
  (d : code_unit) (m : js_string) (log : list ErrorCall) :
  type field = lit "number" ->
  trim (value field) = (45%N :: d :: m)%list ->
  is_digit d = true ->
  validateField field record log
  = (false,
     (log ++ [(Some field, "Please enter a valid number"%string)])%list).
Proof.
  intros Ht Hv Hd. unfold validateField. rewrite Hv, Ht.
  rewrite (parseFloat_minus_digit d m Hd). reflexivity.
Qed.

(** X12: a number field, other than the title and description inputs,
    whose trimmed value is a run of decimal digits is accepted exactly
    when the integer the digits denote is positive: '0' and '000' are
    rejected, '13' is accepted. *)
Theorem validateField_number_digits {S : Type} (field : Element)
  (onError : @ErrorHandler S) (s : S) :
  type field = lit "number" ->
  id field <> lit "title-input" ->
  id field <> lit "description-input" ->
  trim (value field) <> [] ->
  forallb is_digit (trim (value field)) = true ->
  fst (validateField field onError s) = true
  <-> (0 < decimal_value (trim (value field)))%Z.
Proof.
  intros Ht Hi1 Hi2 Hne Hd. unfold validateField.
  rewrite (parseFloat_digits _ Hne Hd).
  apply js_string_eqb_neq in Hne, Hi1, Hi2.
  rewrite Hne, Ht, Hi1, Hi2.
  change (js_string_eqb (lit "number") (lit "number")) with true.
  destruct (Z.ltb_spec 0 (decimal_value (trim (value field)))) as [P|P];
    simpl; split; try discriminate; try tauto; lia.
Qed.

(** X13: [validateField] does not test that the text of a number field
    is numeric: a number field, other than the title and description
    inputs, whose trimmed value starts with a letter other than 'I'
    parses to NaN and is accepted. *)
Theorem validateField_number_accepts_text {S : Type} (field : Element)
  (a : code_unit) (m : js_string) (onError : @ErrorHandler S) (s : S) :
  type field = lit "number" ->
  id field <> lit "title-input" ->
  id field <> lit "description-input" ->
  trim (value field) = (a :: m)%list ->
  (65 <= a <= 122)%N -> a <> 73%N ->
  parseFloat (trim (value field)) = NaN
  /\ validateField field onError s = (true, s).
Proof.
  intros Ht Hi1 Hi2 Hv Ra NI.
  assert (P : parseFloat (trim (value field)) = NaN)
    by (rewrite Hv; now apply parseFloat_letter).
  split; [exact P|].
  unfold validateField. rewrite P, Hv.
  apply js_string_eqb_neq in Hi1, Hi2. rewrite Hi1, Hi2.
  assert (E0 : js_string_eqb (a :: m) [] = false)
    by (apply js_string_eqb_neq; discriminate).
  rewrite E0. cbn [js_le]. rewrite andb_false_r. reflexivity.
Qed.

Lemma validateField_blank_is_required_witness :
  blank (value blank_title)
  /\ validateField blank_title record []
     = (false, [(Some blank_title, "This field is required"%string)]).
Proof.
  assert (B : blank (value blank_title)) by reflexivity.
  split; [exact B|].
  exact (validateField_blank_is_required blank_title [] B).
Defined.

Lemma validateField_ignores_padding_witness :
  blank (lit "  ") /\ blank (lit " ")
  /\ fst (validateField
            (mkElement (lit "title-input") (lit "text")
               (lit "  " ++ lit "Felpa Nike nera" ++ lit " ")) record [])
     = fst (validateField
              (mkElement (lit "title-input") (lit "text")
                 (lit "Felpa Nike nera")) record []).
Proof.
  assert (P : blank (lit "  ")) by reflexivity.
  assert (Q : blank (lit " ")) by reflexivity.
  split; [exact P|]. split; [exact Q|].
  exact (proj1 (validateField_ignores_padding (lit "title-input") (lit "text")
                  (lit "  ") (lit "Felpa Nike nera") (lit " ") P Q)).
Defined.

Lemma validateField_rejects_negative_witness :
  type negative_price = lit "number"
  /\ trim (value negative_price) = (45%N :: 53%N :: [])%list
  /\ validateField negative_price record []
     = (false, [(Some negative_price, "Please enter a valid number"%string)]).
Proof.
  assert (T : type negative_price = lit "number") by reflexivity.
  assert (V : trim (value negative_price) = (45%N :: 53%N :: [])%list)
    by reflexivity.
  split; [exact T|]. split; [exact V|].
  exact (validateField_rejects_negative negative_price 53%N [] [] T V eq_refl).
Defined.

Lemma validateField_number_digits_witness :
  type price_field = lit "number"
  /\ forallb is_digit (trim (value price_field)) = true
  /\ (0 < decimal_value (trim (value price_field)))%Z
  /\ fst (validateField price_field record []) = true.
Proof.
  assert (T : type price_field = lit "number") by reflexivity.
  assert (D : forallb is_digit (trim (value price_field)) = true)
    by reflexivity.
  assert (P : (0 < decimal_value (trim (value price_field)))%Z)
    by reflexivity.
  split; [exact T|]. split; [exact D|]. split; [exact P|].
  apply (validateField_number_digits price_field record [] T);
    [discriminate | discriminate | discriminate | exact D | exact P].
Defined.

Lemma validateField_number_accepts_text_witness :
  type worded_price = lit "number"
  /\ trim (value worded_price) = (97%N :: lit "bc")%list
  /\ validateField worded_price record [] = (true, []).
Proof.
  assert (T : type worded_price = lit "number") by reflexivity.
  assert (V : trim (value worded_price) = (97%N :: lit "bc")%list)
    by reflexivity.
  split; [exact T|]. split; [exact V|].
  refine (proj2 (validateField_number_accepts_text worded_price 97%N
                   (lit "bc") record [] T _ _ V _ _));
    try discriminate; lia.
Defined.

Lemma validateForm_true_iff_witness :
  [JStr "photo.jpg"] <> []
  /\ fst (validateForm sample_document
            [lit "title-input"; lit "missing-input"; lit "price-input"]
            [JStr "photo.jpg"] record []) = true.
Proof.
  assert (I : [JStr "photo.jpg"] <> []) by discriminate.
  split; [exact I|].
  apply validateForm_true_iff. split; [exact I|].
  intros i field Hi G.
  destruct Hi as [<-|[<-|[<-|[]]]]; vm_compute in G;
    try discriminate G; injection G as <-;
    apply (validateField_verdict _ record []); reflexivity.
Defined.

End FormValidatorMore.

(* ================================================================== *)
(** * uiHelpers.js: what showing and hiding do *)
(* ================================================================== *)

Module UiHelpersFacts.

Import AiText UiHelpers.

Lemma js_string_eqb_refl (a : js_string) : js_string_eqb a a = true.
Proof. now apply js_string_eqb_eq. Qed.

Lemma contains_iff (t : js_string) (l : tokens) :
  contains t l = true <-> In t l.
Proof.
  unfold contains. rewrite existsb_exists. split.
  - intros [x [Hx E]]. apply js_string_eqb_eq in E. now subst.
  - intros H. exists t. split; [exact H | apply js_string_eqb_refl].
Qed.

Lemma contains_add (t : js_string) (l : tokens) : contains t (add t l) = true.
Proof.
  unfold add. destruct (contains t l) eqn:E; [exact E|].
  apply contains_iff, in_or_app. right. now left.
Qed.

Lemma contains_remove (t : js_string) (l : tokens) :
  contains t (remove t l) = false.
Proof.
  destruct (contains t (remove t l)) eqn:E; [|reflexivity].
  apply contains_iff in E. unfold remove in E. apply filter_In in E.
  destruct E as [_ E]. now rewrite js_string_eqb_refl in E.
Qed.

Lemma contains_add_other (t u : js_string) (l : tokens) :
  u <> t -> contains u (add t l) = contains u l.
Proof.
  intros N. unfold add. destruct (contains t l); [reflexivity|].
  unfold contains. rewrite existsb_app. simpl.
  apply js_string_eqb_neq in N. rewrite N. now rewrite !orb_false_r.
Qed.

Lemma contains_remove_other (t u : js_string) (l : tokens) :
  u <> t -> contains u (remove t l) = contains u l.
Proof.
  intros N. destruct (contains u l) eqn:E.
  - apply contains_iff. apply contains_iff in E. unfold remove.
    apply filter_In. split; [exact E|].
    apply negb_true_iff, js_string_eqb_neq. exact N.
  - destruct (contains u (remove t l)) eqn:E'; [|reflexivity].
    apply contains_iff in E'. unfold remove in E'. apply filter_In in E'.
    destruct E' as [E' _]. apply contains_iff in E'. congruence.
Qed.

Lemma getElementById_id (page : Page) (i : js_string) (w : Widget) :
  getElementById page i = Some w -> widget_id w = i.
Proof.
  unfold getElementById. intros H. apply find_some in H.
  now apply js_string_eqb_eq.
Qed.

Lemma getElementById_replace (page : Page) (i : js_string) (w w' : Widget) :
  getElementById page i = Some w -> widget_id w' = i ->
  getElementById (replace i w' page) i = Some w'.
Proof.
  unfold getElementById. intros H Hid.
  induction page as [|x page IH]; simpl in *; [discriminate|].
  destruct (js_string_eqb (widget_id x) i) eqn:E; simpl.
  - now rewrite Hid, js_string_eqb_refl.
  - rewrite E. now apply IH.
Qed.

Lemma getElementById_replace_other (page : Page) (i j : js_string)
  (w' : Widget) :
  widget_id w' = i -> j <> i ->
  getElementById (replace i w' page) j = getElementById page j.
Proof.
  unfold getElementById. intros Hid N.
  induction page as [|x page IH]; simpl; [reflexivity|].
  destruct (js_string_eqb (widget_id x) i) eqn:E; simpl.
  - apply js_string_eqb_eq in E. rewrite Hid, E.
    assert (F : js_string_eqb i j = false)
      by (apply js_string_eqb_neq; congruence).
    now rewrite F.
  - destruct (js_string_eqb (widget_id x) j); [reflexivity | exact IH].
Qed.

(** X14: on a page whose overlay has a [<p>], [showLoadingOverlay]
    returns, and afterwards the overlay is shown and its paragraph reads
    the message, whatever its state was before; after
    [hideLoadingOverlay] the overlay is hidden.  Both calls leave the
    other classes of the overlay and every other element as they
    were. *)
Theorem overlay_show_hide (page : Page) (overlayId message : js_string)
  (overlay : Widget) (text : js_string) :
  getElementById page overlayId = Some overlay ->
  paragraph overlay = Some text ->
  exists page',
    showLoadingOverlay overlayId message page = Returns page'
    /\ shown page' overlayId
    /\ (exists w, getElementById page' overlayId = Some w
                  /\ paragraph w = Some message)
    /\ hidden (hideLoadingOverlay overlayId page') overlayId
    /\ hidden (hideLoadingOverlay overlayId page) overlayId
    /\ (forall c w w', c <> lit "hidden" ->
          getElementById page' overlayId = Some w ->
          getElementById (hideLoadingOverlay overlayId page) overlayId
          = Some w' ->
          contains c (classList w) = contains c (classList overlay)
          /\ contains c (classList w') = contains c (classList overlay))
    /\ (forall j, j <> overlayId ->
          getElementById page' j = getElementById page j
          /\ getElementById (hideLoadingOverlay overlayId page) j
             = getElementById page j).
Proof.
  intros G P. pose proof (getElementById_id _ _ _ G) as Hid.
  unfold showLoadingOverlay, hideLoadingOverlay. rewrite G, P.
  eexists. split; [reflexivity|].
  set (w1 := with_classes _ (remove _ _)).
  set (w2 := with_classes overlay (add _ _)).
  assert (G1 : getElementById (replace overlayId w1 page) overlayId = Some w1)
    by (eapply getElementById_replace; eauto).
  assert (G2 : getElementById (replace overlayId w2 page) overlayId = Some w2)
    by (eapply getElementById_replace; eauto).
  split; [|split; [|split; [|split; [|split]]]].
  - exists w1. split; [exact G1 | apply contains_remove].
  - exists w1. split; [exact G1 | reflexivity].
  - rewrite G1. eexists. split.
    + eapply getElementById_replace; [exact G1 | exact Hid].
    + apply contains_add.
  - exists w2. split; [exact G2 | apply contains_add].
  - intros c w w' Hc E1 E2. rewrite G1 in E1. rewrite G2 in E2.
    injection E1 as <-. injection E2 as <-. split.
    + now apply contains_remove_other.
    + now apply contains_add_other.
  - intros j Hj. split; now apply getElementById_replace_other.
Qed.

Lemma getElementById_replace_any (page : Page) (i : js_string)
  (w' : Widget) :
  widget_id w' = i ->
  getElementById (replace i w' page) i
  = match getElementById page i with Some _ => Some w' | None => None end.
Proof.
  intros Hid. destruct (getElementById page i) as [w|] eqn:G.
  - eapply getElementById_replace; eauto.
  - unfold getElementById in *. induction page as [|x page IH]; simpl in *;
      [reflexivity|].
    destruct (js_string_eqb (widget_id x) i) eqn:E; [discriminate|].
    simpl. rewrite E. now apply IH.
Qed.

(** X15: on a page whose toast has a [<span>], [showToast] returns and
    puts the toast on screen with the message, and the timer it sets
    takes the toast off screen when it fires.  A toast shown again before
    that timer fires is taken off screen by the timer of the first call,
    while the timer of the second call is still pending. *)
Theorem toast_hidden_by_oldest_timer (rt : Runtime)
  (toastId m1 m2 ty1 ty2 : js_string) (toast : Widget) (text : js_string) :
  getElementById (page rt) toastId = Some toast ->
  span toast = Some text ->
  timers rt = [] ->
  exists rt1 rt2,
    showToast toastId m1 ty1 rt = Returns rt1
    /\ on_screen rt1 toastId = true
    /\ toast_text rt1 toastId = Some m1
    /\ on_screen (timer_fires rt1) toastId = false
    /\ timers (timer_fires rt1) = []
    /\ showToast toastId m2 ty2 rt1 = Returns rt2
    /\ on_screen rt2 toastId = true
    /\ toast_text rt2 toastId = Some m2
    /\ on_screen (timer_fires rt2) toastId = false
    /\ toast_text (timer_fires rt2) toastId = Some m2
    /\ timers (timer_fires rt2) = [toastId].
Proof.
  intros G Sp T. pose proof (getElementById_id _ _ _ G) as Hid.
  set (t1 := mkWidget (widget_id toast)
               (remove (lit "translate-x-full") (classList toast))
               (paragraph toast) (Some m1)).
  set (rt1 := mkRuntime (replace toastId t1 (page rt)) [toastId]).
  assert (S1 : showToast toastId m1 ty1 rt = Returns rt1).
  { unfold showToast. rewrite G, Sp, T. reflexivity. }
  assert (G1 : getElementById (page rt1) toastId = Some t1)
    by (eapply getElementById_replace; eauto).
  set (t2 := mkWidget (widget_id t1)
               (remove (lit "translate-x-full") (classList t1))
               (paragraph t1) (Some m2)).
  set (rt2 := mkRuntime (replace toastId t2 (page rt1))
                [toastId; toastId]).
  assert (S2 : showToast toastId m2 ty2 rt1 = Returns rt2).
  { unfold showToast. rewrite G1. reflexivity. }
  assert (G2 : getElementById (page rt2) toastId = Some t2)
    by (eapply getElementById_replace; eauto).
  exists rt1, rt2.
  assert (F1 : timer_fires rt1
               = mkRuntime
                   (replace toastId
                      (with_classes t1
                         (add (lit "translate-x-full") (classList t1)))
                      (page rt1)) []).
  { unfold timer_fires. cbn [timers rt1]. now rewrite G1. }
  assert (F2 : timer_fires rt2
               = mkRuntime
                   (replace toastId
                      (with_classes t2
                         (add (lit "translate-x-full") (classList t2)))
                      (page rt2)) [toastId]).
  { unfold timer_fires. cbn [timers rt2]. now rewrite G2. }
  split; [exact S1|]. split; [|split; [|split; [|split]]];
    [| | | | split; [exact S2|]; repeat split].
  - unfold on_screen. rewrite G1. cbn [classList t1].
    now rewrite contains_remove.
  - unfold toast_text. now rewrite G1.
  - rewrite F1. unfold on_screen. cbn [page].
    erewrite getElementById_replace; [|exact G1|exact Hid].
    cbn [classList with_classes]. now rewrite contains_add.
  - now rewrite F1.
  - unfold on_screen. rewrite G2. cbn [classList t2].
    now rewrite contains_remove.
  - unfold toast_text. now rewrite G2.
  - rewrite F2. unfold on_screen. cbn [page].
    erewrite getElementById_replace; [|exact G2|exact Hid].
    cbn [classList with_classes]. now rewrite contains_add.
  - rewrite F2. unfold toast_text. cbn [page].
    erewrite getElementById_replace; [|exact G2|exact Hid]. reflexivity.
  - now rewrite F2.
Qed.

Lemma remove_idempotent (c : js_string) (l : tokens) :
  remove c (remove c l) = remove c l.
Proof.
  unfold remove. induction l as [|x l IH]; simpl; [reflexivity|].
  destruct (js_string_eqb x c) eqn:E; simpl; [exact IH|].
  rewrite E. simpl. now rewrite IH.
Qed.


Lemma overlay_show_hide_witness :
  exists page',
    showLoadingOverlay (lit "loading") (lit "Generating...") sample_page
    = Returns page'
    /\ shown page' (lit "loading")
    /\ hidden (hideLoadingOverlay (lit "loading") page') (lit "loading").
Proof.
  destruct (overlay_show_hide sample_page (lit "loading")
              (lit "Generating...")
              (mkWidget (lit "loading") [lit "overlay"; lit "hidden"]
                 (Some (lit "Loading")) None)
              (lit "Loading") eq_refl eq_refl)
    as (page' & R & S & _ & H & _).
  exists page'. split; [exact R|]. split; [exact S | exact H].
Defined.

Lemma toast_hidden_by_oldest_timer_witness :
  exists rt1 rt2,
    showToast (lit "toast") (lit "Saved") (lit "success")
      (mkRuntime sample_page [])
    = Returns rt1
    /\ showToast (lit "toast") (lit "Failed") (lit "error") rt1 = Returns rt2
    /\ on_screen rt2 (lit "toast") = true
    /\ on_screen (timer_fires rt2) (lit "toast") = false.
Proof.
  destruct (toast_hidden_by_oldest_timer (mkRuntime sample_page [])
              (lit "toast") (lit "Saved") (lit "Failed") (lit "success")
              (lit "error")
              (mkWidget (lit "toast") [lit "toast"; lit "translate-x-full"]
                 None (Some []))
              [] eq_refl eq_refl eq_refl)
    as (rt1 & rt2 & R1 & _ & _ & _ & _ & R2 & S2 & _ & F2 & _).
  exists rt1, rt2. repeat split; assumption.
Defined.


End UiHelpersFacts.

(* ================================================================== *)
(** * upload.js: the drop zone as a state machine *)
(* ================================================================== *)

Module UploadFacts.

Import UiHelpers UiHelpersFacts Upload.

Lemma installed_listeners :
  installed
  = [ (DropZone, click, OpenDialog); (FileInput, change, HandleChange);
      (DropZone, dragenter, PreventAndStop);
      (DropZone, dragover, PreventAndStop);
      (DropZone, dragleave, PreventAndStop);
      (DropZone, drop, PreventAndStop);
      (DropZone, dragenter, Highlight); (DropZone, dragover, Highlight);
      (DropZone, dragleave, Unhighlight); (DropZone, drop, Unhighlight);
      (DropZone, drop, HandleDrop) ].
Proof. reflexivity. Qed.

(** X17: once [setupImageUpload] has run, the highlight of the drop zone
    follows the last drag event that reached it: a dragenter or a
    dragover turns it on, a dragleave or a drop turns it off, whatever
    the state was, and no other event changes it.  No event changes
    another class of the drop zone. *)
Theorem drop_zone_highlight (st : State) (e : Event) :
  highlighted (dispatch installed st e)
  = match target e, type e with
    | DropZone, (dragenter | dragover) => true
    | DropZone, (dragleave | drop) => false
    | _, _ => highlighted st
    end
  /\ forall c, c <> lit "drag-over" ->
       contains c (zone_classes (dispatch installed st e))
       = contains c (zone_classes st).
Proof.
  rewrite installed_listeners. unfold dispatch, highlighted.
  destruct e as [[] [] fs]; cbn -[lit add remove contains]; split;
    intros; rewrite ?contains_add, ?contains_remove,
      ?contains_add_other, ?contains_remove_other by assumption;
    reflexivity.
Qed.

Lemma drop_zone_highlight_witness :
  highlighted (dispatch installed idle (mkEvent DropZone dragover [])) = true
  /\ contains (lit "drop-zone")
       (zone_classes (dispatch installed idle (mkEvent DropZone dragover [])))
     = true.
Proof.
  destruct (drop_zone_highlight idle (mkEvent DropZone dragover []))
    as (A & B).
  split; [exact A|].
  rewrite B; [reflexivity|]. intros H. vm_compute in H. discriminate.
Defined.

Lemma dispatch_added (st : State) (e : Event) :
  added (dispatch installed st e) = (added st ++ handed_over e)%list
  /\ dialogs (dispatch installed st e)
     = (dialogs st
        + if Target_eqb (target e) DropZone && EventType_eqb (type e) click
          then 1 else 0)%nat.
Proof.
  rewrite installed_listeners. unfold dispatch, handed_over.
  destruct e as [[] [] fs]; cbn -[lit add remove contains];
    rewrite ?app_nil_r; split; reflexivity || lia.
Qed.

(** X18: once [setupImageUpload] has run, [onFilesAdded] is called once
    for every change of the file input and once for every drop on the
    drop zone, in the order of the events and with the files of the
    event, and for no other event; every drag event that reaches the drop
    zone has [preventDefault] and [stopPropagation] called on it. *)
Theorem files_handed_over_once (st : State) (events : list Event) :
  added (dispatch_all installed st events)
  = (added st ++ flat_map handed_over events)%list
  /\ forall e, target e = DropZone -> is_drag (type e) = true ->
       preventDefault_called (dispatch installed st e) = true
       /\ stopPropagation_called (dispatch installed st e) = true.
Proof.
  split.
  - revert st. induction events as [|e events IH]; intros st.
    + simpl. now rewrite app_nil_r.
    + change (dispatch_all installed st (e :: events))
        with (dispatch_all installed (dispatch installed st e) events).
      rewrite IH, (proj1 (dispatch_added st e)). simpl.
      now rewrite <- app_assoc.
  - intros e Ht Hd. rewrite installed_listeners. unfold dispatch.
    destruct e as [t ty fs]. simpl in Ht, Hd. subst t.
    destruct ty; try discriminate Hd; cbn -[lit add remove contains];
      split; reflexivity.
Qed.

Lemma files_handed_over_once_witness :
  added
    (dispatch_all installed idle
       [ mkEvent DropZone dragenter [];
         mkEvent DropZone drop [lit "front.jpg"];
         mkEvent DropZone click [];
         mkEvent FileInput change [lit "back.jpg"] ])
  = [[lit "front.jpg"]; [lit "back.jpg"]]
  /\ preventDefault_called
       (dispatch installed idle (mkEvent DropZone drop [lit "front.jpg"]))
     = true.
Proof.
  destruct (files_handed_over_once idle
              [ mkEvent DropZone dragenter [];
                mkEvent DropZone drop [lit "front.jpg"];
                mkEvent DropZone click [];
                mkEvent FileInput change [lit "back.jpg"] ])
    as (A & B).
  split; [exact A|].
  exact (proj1 (B (mkEvent DropZone drop [lit "front.jpg"])
                  eq_refl eq_refl)).
Defined.

End UploadFacts.

(* ================================================================== *)
(** * Whole numbers in binary64 and in [parseFloat] *)
(* ================================================================== *)

Module JsNumberFacts.

Lemma round_half_even_compat (x y : Q) :
  x == y -> round_half_even x = round_half_even y.
Proof.
  intros E. apply Z.le_antisymm; apply rhe_mono; rewrite E; apply Qle_refl.
Qed.

(** A whole number below [2^53] is a binary64 value. *)
Lemma b64_integer (n : Z) :
  (0 <= n < 2 ^ 53)%Z -> b64 (inject_Z n) == inject_Z n.
Proof.
  intros [Lo Hi]. unfold b64. cbn [Qnum inject_Z].
  destruct n as [|p|p]; [reflexivity | | lia].
  set (n := Z.pos p) in *. 
  assert (Hn : 0 < inject_Z n)
    by (change 0 with (inject_Z 0); rewrite <- Zlt_Qlt; lia).
  destruct (ilog2_spec _ Hn) as [L U].
  set (l := ilog2 (inject_Z n)) in *.
  assert (Hl : (0 <= l <= 52)%Z).
  { split.
    - destruct (Z_le_gt_dec 0 l) as [H|H]; [exact H | exfalso].
      assert (2 ^ (l + 1) <= 2 ^ 0) by (apply pow2_le; lia).
      assert (1 <= inject_Z n)
        by (change 1 with (inject_Z 1); rewrite <- Zle_Qle; lia).
      change (2 ^ 0) with 1 in *. lra.
    - destruct (Z_le_gt_dec l 52) as [H|H]; [exact H | exfalso].
      assert (2 ^ 53 <= 2 ^ l) by (apply pow2_le; lia).
      assert (inject_Z n < 2 ^ 53).
      { rewrite <- pow2_Z by lia. rewrite <- Zlt_Qlt. exact Hi. }
      lra. }
  unfold b64_pos, ulp_exp. fold l. rewrite Z.max_l by lia.
  assert (E : 2 ^ (l - 52) == / inject_Z (2 ^ (52 - l))).
  { replace (l - 52)%Z with (- (52 - l))%Z by lia.
    rewrite Qpower_opp, <- pow2_Z by lia. reflexivity. }
  assert (P : 0 < inject_Z (2 ^ (52 - l))).
  { change 0 with (inject_Z 0). rewrite <- Zlt_Qlt.
    apply Z.pow_pos_nonneg; lia. }
  assert (D : inject_Z n / 2 ^ (l - 52) == inject_Z (n * 2 ^ (52 - l))).
  { rewrite E, inject_Z_mult. field. lra. }
  rewrite (round_half_even_compat _ _ D), rhe_Z, E, inject_Z_mult.
  field. lra.
Qed.

Lemma to_number_integer (x : Q) (n : Z) :
  (0 <= n < 2 ^ 53)%Z -> x == inject_Z n ->
  exists r, to_number x = Finite r /\ r == inject_Z n.
Proof.
  intros Hn E. exists (b64 x).
  assert (R : b64 x == inject_Z n)
    by (rewrite (b64_compat _ _ E); now apply b64_integer).
  assert (B : inject_Z n < 2 ^ 53).
  { rewrite <- pow2_Z by lia. rewrite <- Zlt_Qlt. lia. }
  assert (P : 0 <= inject_Z n)
    by (change 0 with (inject_Z 0); rewrite <- Zle_Qle; lia).
  assert (M : 2 ^ 53 <= 2 ^ 1024) by (apply pow2_le; lia).
  split; [|exact R]. unfold to_number. cbv zeta.
  destruct (Qle_bool (2 ^ 1024) (b64 x)) eqn:E1.
  { apply Qle_bool_iff in E1. lra. }
  destruct (Qle_bool (b64 x) (- 2 ^ 1024)) eqn:E2; [|reflexivity].
  apply Qle_bool_iff in E2. lra.
Qed.

Lemma parseFloat_digits_value (ds : js_string) :
  ds <> [] -> forallb is_digit ds = true ->
  parseFloat ds = to_number (inject_Z (decimal_value ds) * 1).
Proof.
  intros Hne H.
  destruct ds as [|d ds']; [congruence|]. clear Hne.
  assert (Hd : is_digit d = true).
  { cbn [forallb] in H. now apply andb_true_iff in H. }
  pose proof (digit_range d Hd) as Rd.
  rewrite parseFloat_eq.
  rewrite (trimStart_head d ds') by (apply letter_not_white_space; lia).
  assert (E43 : (d =? 43)%N = false) by (apply N.eqb_neq; lia).
  assert (E45 : (d =? 45)%N = false) by (apply N.eqb_neq; lia).
  cbv beta iota zeta. rewrite E43, E45. cbv beta iota zeta.
  assert (S0 : starts_with (lit "Infinity") (d :: ds') = false).
  { change (lit "Infinity") with (73%N :: lit "nfinity")%list.
    cbn [starts_with]. destruct (N.eqb_spec 73 d); [lia | reflexivity]. }
  rewrite S0, unsigned_literal_eq, (span_digits_all (d :: ds') 0 0 H).
  cbv zeta iota.
  assert (N0 : (0 + Z.of_nat (List.length (d :: ds')) =? 0)%Z = false)
    by (apply Z.eqb_neq; simpl; lia).
  rewrite N0. fold (decimal_value (d :: ds')). reflexivity.
Qed.

End JsNumberFacts.

Import JsNumberFacts.

(* ================================================================== *)
(** * previewUpdater.js: what the preview shows *)
(* ================================================================== *)

Module PreviewUpdaterFacts.

Import AiText PreviewUpdater.

Lemma get_update_same (i : js_string) (f : Node -> Node) (page : Page) :
  keeps_id f ->
  getElementById (update (has_id i) f page) i
  = option_map f (getElementById page i).
Proof.
  intros K. unfold getElementById, has_id.
  induction page as [|n page IH]; simpl; [reflexivity|].
  destruct (js_string_eqb (node_id n) i) eqn:E; simpl.
  - now rewrite K, E.
  - now rewrite E.
Qed.

Lemma get_update_other (p : Node -> bool) (i j : js_string)
  (f : Node -> Node) (page : Page) :
  keeps_id f -> (forall n, p n = true -> node_id n = i) -> j <> i ->
  getElementById (update p f page) j = getElementById page j.
Proof.
  intros K P N. unfold getElementById.
  induction page as [|n page IH]; simpl; [reflexivity|].
  destruct (p n) eqn:E; simpl.
  - rewrite K. apply P in E.
    assert (F : js_string_eqb (node_id n) j = false)
      by (apply js_string_eqb_neq; congruence).
    now rewrite F.
  - destruct (js_string_eqb (node_id n) j); [reflexivity | exact IH].
Qed.

Lemma has_id_id (i : js_string) (n : Node) : has_id i n = true -> node_id n = i.
Proof. apply js_string_eqb_eq. Qed.

Lemma holds_img_id (i : js_string) (n : Node) :
  holds_img i n = true -> node_id n = i.
Proof.
  unfold holds_img. intros H. apply andb_true_iff in H.
  now apply has_id_id.
Qed.

(** A write to the element with another id leaves the image container
    and its image alone. *)
Lemma find_img_update_other (i j : js_string) (f : Node -> Node)
  (page : Page) :
  keeps_id f -> i <> j ->
  find (holds_img i) (update (has_id j) f page) = find (holds_img i) page.
Proof.
  intros K N. induction page as [|n page IH]; simpl; [reflexivity|].
  destruct (has_id j n) eqn:E; simpl.
  - assert (F : forall m, node_id m = j -> holds_img i m = false).
    { intros m Hm. unfold holds_img, has_id. rewrite Hm.
      assert (X : js_string_eqb j i = false)
        by (apply js_string_eqb_neq; congruence).
      now rewrite X. }
    apply has_id_id in E.
    rewrite (F (f n)) by (now rewrite K). now rewrite (F n E).
  - destruct (holds_img i n); [reflexivity | exact IH].
Qed.

(** A write that keeps the ids changes which element an id names. *)
Lemma get_update_shape (p : Node -> bool) (f : Node -> Node)
  (j : js_string) (page : Page) :
  keeps_id f ->
  match getElementById page j with
  | Some n =>
      getElementById (update p f page) j = Some n
      \/ getElementById (update p f page) j = Some (f n)
  | None => getElementById (update p f page) j = None
  end.
Proof.
  intros K. unfold getElementById.
  induction page as [|n page IH]; simpl; [reflexivity|].
  destruct (p n) eqn:P; simpl.
  - rewrite K. destruct (js_string_eqb (node_id n) j); [now right|].
    destruct (find _ page); [now left | reflexivity].
  - destruct (js_string_eqb (node_id n) j); [now left | exact IH].
Qed.

Lemma present_update (p : Node -> bool) (f : Node -> Node)
  (j : js_string) (page : Page) :
  keeps_id f ->
  getElementById (update p f page) j = None <-> getElementById page j = None.
Proof.
  intros K. pose proof (get_update_shape p f j page K) as H.
  destruct (getElementById page j); [|tauto].
  split; [|discriminate]. destruct H as [-> | ->]; discriminate.
Qed.

Lemma write_text_keeps_id (t : js_string) : keeps_id (write_text t).
Proof. intros n. reflexivity. Qed.

Lemma tag_write_keeps_id (d t : js_string) :
  keeps_id (fun el => write_display d (write_text t el)).
Proof. intros n. reflexivity. Qed.

Lemma setTag_present (i t j : js_string) (page : Page) :
  getElementById (setTag i t page) j = None <-> getElementById page j = None.
Proof.
  unfold setTag. destruct (getElementById page i); [|tauto].
  apply present_update, tag_write_keeps_id.
Qed.

Lemma setTag_img (i t j : js_string) (page : Page) :
  j <> i ->
  find (holds_img j) (setTag i t page) = find (holds_img j) page.
Proof.
  intros N. unfold setTag. destruct (getElementById page i); [|reflexivity].
  apply find_img_update_other; [apply tag_write_keeps_id | exact N].
Qed.

Lemma set_text_eq (i t : js_string) (page : Page) :
  set_text i t page
  = match getElementById page i with
    | Some _ => Done (update (has_id i) (write_text t) page)
    | None => Threw page
    end.
Proof. reflexivity. Qed.

Lemma current_image_none (st : FormState) :
  current_image st = None
  <-> ~ (0 <= currentImageIndex st
         < Z.of_nat (List.length (images st)))%Z.
Proof.
  unfold current_image. destruct (Z.ltb_spec (currentImageIndex st) 0).
  - split; [lia | reflexivity].
  - rewrite nth_error_None. lia.
Qed.

Lemma set_text_same (i t : js_string) (page page' : Page) :
  set_text i t page = Done page' -> shows page' i t.
Proof.
  rewrite set_text_eq. destruct (getElementById page i) as [n|] eqn:G;
    [|discriminate].
  intros H. injection H as <-. exists (write_text t n). split; [|reflexivity].
  rewrite get_update_same by apply write_text_keeps_id. now rewrite G.
Qed.

Lemma set_text_other (i t j : js_string) (page page' : Page) :
  set_text i t page = Done page' -> j <> i ->
  getElementById page' j = getElementById page j.
Proof.
  rewrite set_text_eq. destruct (getElementById page i); [|discriminate].
  intros H N. injection H as <-.
  apply (get_update_other _ i); [apply write_text_keeps_id | | exact N].
  intros ?. apply has_id_id.
Qed.

Lemma setTag_other (i t j : js_string) (page : Page) :
  j <> i -> getElementById (setTag i t page) j = getElementById page j.
Proof.
  intros N. unfold setTag. destruct (getElementById page i); [|reflexivity].
  apply (get_update_other _ i); [apply tag_write_keeps_id | | exact N].
  intros ?. apply has_id_id.
Qed.

Lemma setTag_same (i t : js_string) (page : Page) :
  tag_shows (setTag i t page) i t.
Proof.
  intros n. unfold setTag.
  destruct (getElementById page i) as [m|] eqn:G; [|congruence].
  rewrite get_update_same by apply tag_write_keeps_id. rewrite G.
  intros H. injection H as <-. cbn.
  destruct t as [|c t]; cbn.
  - repeat split; try reflexivity; try discriminate. now intros H.
  - repeat split; try reflexivity; discriminate.
Qed.

Lemma set_image_other (i j : js_string) (st : FormState)
  (page page' : Page) :
  set_image i st page = Done page' -> j <> i ->
  getElementById page' j = getElementById page j.
Proof.
  unfold set_image. intros H N.
  destruct (find (holds_img i) page); [|now injection H as <-].
  destruct (images st); [now injection H as <-|].
  destruct (current_image st); [|discriminate]. injection H as <-.
  apply (get_update_other _ i); [now intros ? | | exact N].
  intros ?. apply holds_img_id.
Qed.

Lemma shows_eq (page page' : Page) (i t : js_string) :
  getElementById page' i = getElementById page i ->
  shows page i t -> shows page' i t.
Proof. unfold shows. now intros ->. Qed.

Lemma tag_shows_eq (page page' : Page) (i t : js_string) :
  getElementById page' i = getElementById page i ->
  tag_shows page i t -> tag_shows page' i t.
Proof. unfold tag_shows. now intros ->. Qed.

Lemma set_text_img (i t j : js_string) (page page' : Page) :
  set_text i t page = Done page' -> j <> i ->
  find (holds_img j) page' = find (holds_img j) page.
Proof.
  rewrite set_text_eq. destruct (getElementById page i); [|discriminate].
  intros H N. injection H as <-.
  apply find_img_update_other; [apply write_text_keeps_id | exact N].
Qed.

Lemma find_update_same (p : Node -> bool) (f : Node -> Node) (page : Page) :
  (forall n, p n = true -> p (f n) = true) ->
  find p (update p f page) = option_map f (find p page).
Proof.
  intros K. induction page as [|n page IH]; simpl; [reflexivity|].
  destruct (p n) eqn:E; simpl.
  - now rewrite (K n E).
  - now rewrite E.
Qed.

Lemma Qfloor_half (m : Z) : Qfloor (inject_Z m + (1 # 2)) = m.
Proof.
  pose proof (Qfloor_le (inject_Z m + (1 # 2))) as L.
  pose proof (Qlt_floor (inject_Z m + (1 # 2))) as U.
  set (f := Qfloor (inject_Z m + (1 # 2))) in *.
  rewrite inject_Z_plus in U. change (inject_Z 1) with 1 in U.
  assert (A : inject_Z f < inject_Z (m + 1)).
  { rewrite inject_Z_plus. change (inject_Z 1) with 1. lra. }
  assert (B : inject_Z m < inject_Z (f + 1)).
  { rewrite inject_Z_plus. change (inject_Z 1) with 1. lra. }
  rewrite <- Zlt_Qlt in A, B. lia.
Qed.

Ltac ids_differ :=
  match goal with
  | D : distinct_ids _ |- _ =>
      unfold distinct_ids in D;
      repeat match goal with
             | H : NoDup (_ :: _) |- _ => inversion H; clear H; subst
             end;
      simpl In in *; intuition congruence
  end.

Section WithRuntime.

Variable Number_toString : js_number -> js_string.
Variable toUpperCase : js_string -> js_string.


(** X20: when [updatePreview] returns and the seven ids differ, the
    title, description and price elements read the title or its
    placeholder, the description or its placeholder and the price label,
    and every tag on the page reads its text and is hidden exactly when
    that text is empty: no later statement overwrites an earlier one. *)
Theorem updatePreview_writes (ids : PreviewIds) (st : FormState)
  (page page' : Page) :
  distinct_ids ids ->
  updatePreview Number_toString toUpperCase ids st page = Done page' ->
  shows page' (title_id ids) (or_else (title st) (lit "Your Amazing Item"))
  /\ shows page' (description_id ids)
       (or_else (description st) (lit "Describe your item..."))
  /\ shows page' (price_id ids) (price_label Number_toString (price st))
  /\ tag_shows page' (category_id ids) (categoryText st)
  /\ tag_shows page' (size_id ids) (size_label toUpperCase (size st))
  /\ tag_shows page' (condition_id ids) (conditionText st).
Proof.
  intros D. unfold updatePreview.
  destruct (set_text (title_id ids) _ page) as [p1|] eqn:T1;
    [|discriminate]. cbn [next].
  destruct (set_text (description_id ids) _ p1) as [p2|] eqn:T2;
    [|discriminate]. cbn [next].
  destruct (set_text (price_id ids) _ p2) as [p3|] eqn:T3;
    [|discriminate]. cbn [next].
  set (p4 := setTag (category_id ids) (categoryText st) p3).
  set (p5 := setTag (size_id ids) _ p4).
  set (p6 := setTag (condition_id ids) _ p5).
  intros I.
  assert (A1 : forall j, j <> image_id ids ->
                 getElementById page' j = getElementById p6 j)
    by (intros j; apply (set_image_other _ _ _ _ _ I)).
  assert (A2 : forall j, j <> condition_id ids ->
                 getElementById p6 j = getElementById p5 j)
    by (intros j; apply setTag_other).
  assert (A3 : forall j, j <> size_id ids ->
                 getElementById p5 j = getElementById p4 j)
    by (intros j; apply setTag_other).
  assert (A4 : forall j, j <> category_id ids ->
                 getElementById p4 j = getElementById p3 j)
    by (intros j; apply setTag_other).
  assert (A5 : forall j, j <> price_id ids ->
                 getElementById p3 j = getElementById p2 j)
    by (intros j; apply (set_text_other _ _ _ _ _ T3)).
  assert (A6 : forall j, j <> description_id ids ->
                 getElementById p2 j = getElementById p1 j)
    by (intros j; apply (set_text_other _ _ _ _ _ T2)).
  apply set_text_same in T1, T2, T3.
  pose proof (setTag_same (category_id ids) (categoryText st) p3) as T4.
  pose proof (setTag_same (size_id ids)
                (size_label toUpperCase (size st)) p4) as T5.
  pose proof (setTag_same (condition_id ids) (conditionText st) p5) as T6.
  fold p4 in T4. fold p5 in T5. fold p6 in T6.
  split; [|split; [|split; [|split; [|split]]]].
  - apply (shows_eq p1); [|exact T1].
    rewrite A1, A2, A3, A4, A5, A6 by ids_differ. reflexivity.
  - apply (shows_eq p2); [|exact T2].
    rewrite A1, A2, A3, A4, A5 by ids_differ. reflexivity.
  - apply (shows_eq p3); [|exact T3].
    rewrite A1, A2, A3, A4 by ids_differ. reflexivity.
  - apply (tag_shows_eq p4); [|exact T4].
    rewrite A1, A2, A3 by ids_differ. reflexivity.
  - apply (tag_shows_eq p5); [|exact T5].
    rewrite A1, A2 by ids_differ. reflexivity.
  - apply (tag_shows_eq p6); [|exact T6].
    rewrite A1 by ids_differ. reflexivity.
Qed.


Lemma digits_zero : digits 0 = lit "0".
Proof. reflexivity. Qed.

(** X22: a price written with digits only, of a value below [2^53], is
    shown as that value without leading zeros, followed by [.00]:
    [parseFloat] reads the value exactly and [toFixed(2)] adds the two
    decimals. *)
Theorem price_label_whole_number (ds : js_string) :
  ds <> [] -> forallb is_digit ds = true ->
  (decimal_value ds < 2 ^ 53)%Z ->
  price_label Number_toString ds
  = (euro :: digits (decimal_value ds) ++ lit ".00")%list.
Proof.
  intros Hne Hd Hv. pose proof (decimal_value_nonneg ds Hd) as H0.
  unfold price_label.
  assert (Ne : js_string_eqb ds [] = false)
    by (destruct ds; [congruence | reflexivity]).
  rewrite Ne, (parseFloat_digits_value ds Hne Hd).
  set (v := decimal_value ds) in *.
  destruct (to_number_integer (inject_Z v * 1) v) as (r & -> & R);
    [lia | ring |].
  assert (P : 0 <= r).
  { rewrite R. change 0 with (inject_Z 0). rewrite <- Zle_Qle. lia. }
  assert (A : Qabs r == inject_Z v) by (rewrite Qabs_pos; assumption).
  assert (B : inject_Z v < 2 ^ 53).
  { rewrite <- pow2_Z by lia. rewrite <- Zlt_Qlt. lia. }
  unfold toFixed2.
  destruct (Qle_bool (10 ^ 21) (Qabs r)) eqn:E.
  { apply Qle_bool_iff in E. rewrite A in E.
    assert (2 ^ 53 <= 10 ^ 21) by (vm_compute; discriminate). lra. }
  assert (F : Qfloor (Qabs r * 100 + (1 # 2)) = (v * 100)%Z).
  { rewrite <- (Qfloor_half (v * 100)). apply Qfloor_comp.
    rewrite A, inject_Z_mult. reflexivity. }
  rewrite F. cbv zeta.
  rewrite Z.mod_mul, Z.div_mul by lia.
  change (0 / 10)%Z with 0%Z. change (0 mod 10)%Z with 0%Z.
  rewrite digits_zero.
  assert (G : Qle_bool 0 r = true) by now apply Qle_bool_iff.
  rewrite G. reflexivity.
Qed.

(** X23: a price that is not empty and holds white space only, or
    starts with a letter other than [I], is shown as [NaN] after the
    euro sign, not as the placeholder [0.00]. *)
Theorem price_label_not_a_number (price : js_string) :
  price <> [] ->
  blank price
  \/ (exists a s, price = (a :: s)%list /\ (65 <= a <= 122)%N /\ a <> 73%N) ->
  price_label Number_toString price = (euro :: lit "NaN")%list.
Proof.
  intros Hne H. unfold price_label.
  assert (Ne : js_string_eqb price [] = false)
    by (destruct price; [congruence | reflexivity]).
  rewrite Ne. destruct H as [B | (a & s & -> & R & N)].
  - rewrite parseFloat_eq, (trimStart_all_blank _ B). reflexivity.
  - now rewrite parseFloat_letter.
Qed.

End WithRuntime.


Lemma updatePreview_writes_witness :
  distinct_ids preview_ids
  /\ shows
       (page_of
          (updatePreview show_number ascii_upper preview_ids draft
             preview_page))
       (price_id preview_ids) (euro :: lit "NaN")%list.
Proof.
  assert (D : distinct_ids preview_ids).
  { unfold distinct_ids.
    repeat (constructor;
            [vm_compute; intros H; decompose [or] H;
             discriminate || assumption|]).
    constructor. }
  split; [exact D|].
  assert (R : updatePreview show_number ascii_upper preview_ids draft
                preview_page
              = Done (page_of
                        (updatePreview show_number ascii_upper preview_ids
                           draft preview_page)))
    by (vm_compute; reflexivity).
  exact (proj1 (proj2 (proj2
           (updatePreview_writes show_number ascii_upper preview_ids draft
              preview_page _ D R)))).
Defined.


Lemma price_label_whole_number_witness :
  price_label show_number (lit "007") = (euro :: lit "7.00")%list.
Proof.
  apply (price_label_whole_number show_number (lit "007"));
    [discriminate | reflexivity | vm_compute; reflexivity].
Defined.

Lemma price_label_not_a_number_witness :
  price_label show_number (lit "abc") = (euro :: lit "NaN")%list.
Proof.
  apply (price_label_not_a_number show_number (lit "abc"));
    [discriminate|].
  right. exists 97%N, (lit "bc"). split; [reflexivity|]. split; lia.
Defined.

End PreviewUpdaterFacts.
